(** * vue-webrtc: the signaling and peer-connection orchestration of
      [src/lib-components/vue-webrtc.vue]

    The component's [setup] function is embedded as programs of a small
    free monad ([Prog]): reads and writes of the component's refs
    ([socket], [videoList], [videos]), calls into the host (socket.io,
    RTCPeerConnection, mediaDevices, console, Vue's [emit]), registration of
    listeners, and [await].  An [await] suspends the running async function
    and parks its continuation until the host settles the promise, so the
    interleavings of the event loop are the sequences of [Event]s fed to
    [step].  Everything observable is appended to [trace].

    The host is a parameter: the promises it returns ([getUserMedia],
    [getDisplayMedia], [createOffer], [setLocalDescription],
    [setRemoteDescription], [addIceCandidate]) are settled by the
    environment, with a value or an error, in any order; its synchronous
    calls (the [RTCPeerConnection] constructor, [addTrack], [track.stop],
    the socket's [on], [emit] and [disconnect]) are taken to return.
    [onPeer] (lines 311-328) is not embedded: nothing calls it and [setup]
    does not return it. *)

From Stdlib Require Import String List Bool Arith Lia Ascii.
From Stdlib.Strings Require Byte.
Import ListNotations.
Open Scope string_scope.

(** ** Data *)

Definition PeerId := string.
Definition Sdp := string.
Definition Candidate := string.
Definition Track := string.

(** A MediaStream: its [id] and what [getTracks()] returns. *)
Record Stream := mkStream { stream_id : string; getTracks : list Track }.

(** An item of [videoList]: [{ id, muted, stream, isLocal }]. *)
Record Video := mkVideo
  { video_id : string; muted : bool; stream : Stream; isLocal : bool }.

(** A rendered [<video>] element of the template ref [videos]. *)
Record VideoElement := mkVideoElement
  { el_id : string; clientHeight : nat; clientWidth : nat;
    srcObject : option Stream }.

(** The canvas built by [getCanvas]: its size and the element drawn on it. *)
Record Canvas := mkCanvas
  { canvas_height : nat; canvas_width : nat; canvas_drawn : string }.

Inductive Error :=
| TypeError (msg : string)
| ReferenceError (name : string)
| HostError (msg : string).

Inductive VideoConstraint :=
| VideoFlag (b : bool)
| VideoExact (deviceId : string).

Record Constraints := mkConstraints
  { c_video : VideoConstraint; c_audio : bool }.

(** The props the script reads. *)
Record Props := mkProps
  { roomId : string;
    socketURL : string;
    screenshotFormat : string;
    enableAudio : bool;
    enableVideo : bool;
    enableLogs : bool;
    deviceId : option string;
    jwtToken : option string }.

(** What the script needs from its host: whether the global scope binds
    [nextTick] (the module itself imports only [defineComponent], [ref],
    [onMounted] and [onBeforeUnmount] from vue), whether
    [navigator.mediaDevices] exists, the id the relay gave each socket, and
    the browser's [canvas.toDataURL]. *)
Record Host := mkHost
  { global_nextTick : bool;
    mediaDevices : bool;
    socket_id : nat -> PeerId;
    toDataURL : Canvas -> string -> string }.

(** Identifiers the module imports from 'vue' (line 12). *)
Definition vue_imports : list string :=
  ["defineComponent"; "ref"; "onMounted"; "onBeforeUnmount"].

(** Messages the relay delivers, with the fields the listeners read. *)
Inductive InMsg :=
| InConnectError (err : string)
| InDiscover (peers : list PeerId)
| InRequest (socketId : PeerId)
| InAnswer (socketId : PeerId) (answer : Sdp)
| InIceCandidate (socketId : PeerId) (candidate : option Candidate)
| InOther (name : string).

Definition msg_name (m : InMsg) : string :=
  match m with
  | InConnectError _ => "connect_error"
  | InDiscover _ => "discover"
  | InRequest _ => "request"
  | InAnswer _ _ => "answer"
  | InIceCandidate _ _ => "ice-candidate"
  | InOther n => n
  end.

(** Payloads of [socket.value.emit]. *)
Inductive OutData :=
| ORoom (room : string)
| OOffer (target : PeerId) (offer : Sdp)
| OCandidate (target : PeerId) (candidate : Candidate).

Inductive PcArg :=
| PNone
| PTrack (t : Track) (of_stream : string)
| PDesc (d : Sdp)
| PCand (c : Candidate).

(** Host calls: the method is kept as the string the source writes. *)
Inductive Call :=
| GetUserMedia (c : Constraints)
| GetDisplayMedia
| PcMethod (pc : nat) (meth : string) (arg : PcArg)
| TrackStop (t : Track).

Inductive EmitArg :=
| AStr (s : string)
| AErr (e : Error).

(** Everything an observer of the component can see. *)
Inductive Action :=
| ConsoleLog (msg : string)
| ConsoleError (msg : string)
| ConsoleWarn (msg : string)
| Io (sk : nat) (url : string) (token : string)
| SocketOn (sk : nat) (ev : string)
| SocketEmit (sk : nat) (ev : string) (d : OutData)
| SocketDisconnect (sk : nat)
| Emit (ev : string) (arg : EmitArg)
| NewRTCPeerConnection (pc : nat) (owner : PeerId)
| Invoke (c : Call)
| Uncaught (e : Error).

Inductive Value :=
| VUndefined
| VStream (s : Stream)
| VDesc (d : Sdp).

Inductive Settled :=
| Resolved (v : Value)
| Rejected (e : Error).

(** Events the browser fires on an RTCPeerConnection. *)
Inductive PcEvent :=
| OnTrack (s : Stream)
| OnIceCandidate (c : option Candidate)
| OnIceConnectionStateChange (iceConnectionState : string)
| OnError.

Definition pc_slot (e : PcEvent) : string :=
  match e with
  | OnTrack _ => "ontrack"
  | OnIceCandidate _ => "onicecandidate"
  | OnIceConnectionStateChange _ => "oniceconnectionstatechange"
  | OnError => "onerror"
  end.

(** The refs of [setup]: [socket], [videoList], [videos]. *)
Record Store := mkStore
  { socket : option nat;
    videoList : list Video;
    videos : list VideoElement }.

(** ** Programs *)

Inductive Prog (A : Type) : Type :=
| Ret (a : A)
| Throw (e : Error)
| Do (a : Action) (k : Prog A)
| Get (k : Store -> Prog A)
| Put (st : Store) (k : Prog A)
| NewSocket (k : nat -> Prog A)
| NewPC (owner : PeerId) (k : nat -> Prog A)
| On (sk : nat) (ev : string) (h : InMsg -> Prog unit) (k : Prog A)
| SetHandler (pc : nat) (slot : string) (h : PcEvent -> Prog unit) (k : Prog A)
| Disconnect (sk : nat) (k : Prog A)
| Await (c : Call) (k : Settled -> Prog A)
| NextTick (cb : Prog unit) (k : Prog A)
| Spawn (p : Prog unit) (k : Prog A).

Arguments Ret {A} a.
Arguments Throw {A} e.
Arguments Do {A} a k.
Arguments Get {A} k.
Arguments Put {A} st k.
Arguments NewSocket {A} k.
Arguments NewPC {A} owner k.
Arguments On {A} sk ev h k.
Arguments SetHandler {A} pc slot h k.
Arguments Disconnect {A} sk k.
Arguments Await {A} c k.
Arguments NextTick {A} cb k.
Arguments Spawn {A} p k.

Fixpoint bind {A B : Type} (p : Prog A) (f : A -> Prog B) : Prog B :=
  match p with
  | Ret a => f a
  | Throw e => Throw e
  | Do a k => Do a (bind k f)
  | Get k => Get (fun st => bind (k st) f)
  | Put st k => Put st (bind k f)
  | NewSocket k => NewSocket (fun n => bind (k n) f)
  | NewPC o k => NewPC o (fun n => bind (k n) f)
  | On sk ev h k => On sk ev h (bind k f)
  | SetHandler pc sl h k => SetHandler pc sl h (bind k f)
  | Disconnect sk k => Disconnect sk (bind k f)
  | Await c k => Await c (fun o => bind (k o) f)
  | NextTick cb k => NextTick cb (bind k f)
  | Spawn q k => Spawn q (bind k f)
  end.

(** [try { p } catch (e) { h e }]: only what [p] itself throws is caught,
    also after an [await]; listeners and spawned async calls are not. *)
Fixpoint try_catch {A : Type} (p : Prog A) (h : Error -> Prog A) : Prog A :=
  match p with
  | Ret a => Ret a
  | Throw e => h e
  | Do a k => Do a (try_catch k h)
  | Get k => Get (fun st => try_catch (k st) h)
  | Put st k => Put st (try_catch k h)
  | NewSocket k => NewSocket (fun n => try_catch (k n) h)
  | NewPC o k => NewPC o (fun n => try_catch (k n) h)
  | On sk ev l k => On sk ev l (try_catch k h)
  | SetHandler pc sl l k => SetHandler pc sl l (try_catch k h)
  | Disconnect sk k => Disconnect sk (try_catch k h)
  | Await c k => Await c (fun o => try_catch (k o) h)
  | NextTick cb k => NextTick cb (try_catch k h)
  | Spawn q k => Spawn q (try_catch k h)
  end.

Declare Scope prog_scope.
Delimit Scope prog_scope with prog.
Notation "x <- p ; q" := (bind p (fun x => q))
  (at level 61, p at next level, right associativity) : prog_scope.
Notation "p ;; q" := (bind p (fun _ => q))
  (at level 61, right associativity) : prog_scope.
Open Scope prog_scope.

Definition act (a : Action) : Prog unit := Do a (Ret tt).
Definition console_log (m : string) : Prog unit := act (ConsoleLog m).
Definition console_error (m : string) : Prog unit := act (ConsoleError m).
Definition console_warn (m : string) : Prog unit := act (ConsoleWarn m).
Definition emit (ev : string) (a : EmitArg) : Prog unit := act (Emit ev a).
Definition invoke (c : Call) : Prog unit := act (Invoke c).
Definition spawn (p : Prog unit) : Prog unit := Spawn p (Ret tt).

(** [array.forEach(f)]. *)
Fixpoint forEach {X : Type} (l : list X) (f : X -> Prog unit) : Prog unit :=
  match l with
  | [] => Ret tt
  | x :: l' => f x ;; forEach l' f
  end.

(** [await c] for a promise of a stream, of a description, of nothing. *)
Definition await_stream (c : Call) : Prog Stream :=
  Do (Invoke c) (Await c (fun o =>
    match o with
    | Resolved (VStream s) => Ret s
    | Resolved _ => Throw (TypeError "not a MediaStream")
    | Rejected e => Throw e
    end)).

Definition await_desc (c : Call) : Prog Sdp :=
  Do (Invoke c) (Await c (fun o =>
    match o with
    | Resolved (VDesc d) => Ret d
    | Resolved _ => Throw (TypeError "not a description")
    | Rejected e => Throw e
    end)).

Definition await_unit (c : Call) : Prog unit :=
  Do (Invoke c) (Await c (fun o =>
    match o with
    | Resolved _ => Ret tt
    | Rejected e => Throw e
    end)).

(** [socket.value]: reading a member of it throws when it is [null]. *)
Definition socket_value : Prog nat :=
  Get (fun st =>
    match socket st with
    | Some sk => Ret sk
    | None => Throw (TypeError "Cannot read properties of null")
    end).

Definition set_socket (v : option nat) : Prog unit :=
  Get (fun st => Put (mkStore v (videoList st) (videos st)) (Ret tt)).

Definition set_videoList (v : list Video) : Prog unit :=
  Get (fun st => Put (mkStore (socket st) v (videos st)) (Ret tt)).

Definition set_videos (v : list VideoElement) : Prog unit :=
  Get (fun st => Put (mkStore (socket st) (videoList st) v) (Ret tt)).

(** [socket.value.on(ev, h)] and [socket.value.emit(ev, d)]. *)
Definition socket_on (ev : string) (h : InMsg -> Prog unit) : Prog unit :=
  sk <- socket_value ; On sk ev h (act (SocketOn sk ev)).

Definition socket_emit (ev : string) (d : OutData) : Prog unit :=
  sk <- socket_value ; act (SocketEmit sk ev d).

(** JavaScript truthiness of a nullable string. *)
Definition truthy (s : option string) : option string :=
  match s with
  | Some "" => None
  | Some v => Some v
  | None => None
  end.

Definition io (url token : string) : Prog nat :=
  NewSocket (fun sk => Do (Io sk url token) (Ret sk)).

Definition new_RTCPeerConnection (owner : PeerId) : Prog nat :=
  NewPC owner (fun pc => Do (NewRTCPeerConnection pc owner) (Ret pc)).

Definition set_handler (pc : nat) (slot : string) (h : PcEvent -> Prog unit)
  : Prog unit :=
  SetHandler pc slot h (Ret tt).

Definition isSome {X} (o : option X) : bool :=
  match o with Some _ => true | None => false end.

(** ** The component ([setup], lines 83-438) *)

Section Component.

Variable host : Host.
Variable props : Props.

(** Lines 90-94. The second argument of [console.log] is not kept. *)
Definition log (message : string) : Prog unit :=
  if enableLogs props then console_log message else Ret tt.

(** Resolution of the free identifier [nextTick] of line 345: module scope,
    then global scope. *)
Definition nextTick_in_scope : bool :=
  existsb (String.eqb "nextTick") vue_imports || global_nextTick host.

(** [nextTick(cb)]: a ReferenceError where the identifier is unbound. *)
Definition nextTick (cb : Prog unit) : Prog unit :=
  if nextTick_in_scope then NextTick cb (Ret tt)
  else Throw (ReferenceError "nextTick").

(** Lines 330-354. *)
Definition joinedRoom (stream : Stream) (isLocal : bool) : Prog unit :=
  Get (fun st =>
    let found :=
      find (fun video => video_id video =? stream_id stream) (videoList st) in
    (if negb (isSome found)
     then set_videoList
            (videoList st ++ [mkVideo (stream_id stream) isLocal stream isLocal])
     else Ret tt) ;;
    nextTick
      (Get (fun st' =>
         set_videos
           (map (fun videoElement =>
                   if el_id videoElement =? stream_id stream
                   then mkVideoElement (el_id videoElement)
                          (clientHeight videoElement)
                          (clientWidth videoElement) (Some stream)
                   else videoElement)
                (videos st')))) ;;
    emit "joined-room" (AStr (stream_id stream))).

(** The ["answer"] listeners of lines 201-209 and 272-280. *)
Definition on_answer (peerID : PeerId) (pc : nat) (data : InMsg) : Prog unit :=
  match data with
  | InAnswer socketId answer =>
      if socketId =? peerID
      then try_catch
             (await_unit (PcMethod pc "setRemoteDescription" (PDesc answer)))
             (fun _ => console_error "Error setting remote description: ")
      else Ret tt
  | _ => Ret tt
  end.

(** The ["ice-candidate"] listeners of lines 212-220, 253-261, 282-290. *)
Definition on_ice_candidate (peerID : PeerId) (pc : nat) (data : InMsg)
  : Prog unit :=
  match data with
  | InIceCandidate socketId (Some candidate) =>
      if socketId =? peerID
      then try_catch
             (await_unit (PcMethod pc "addIceCandidate" (PCand candidate)))
             (fun _ => console_error "Error adding ICE candidate: ")
      else Ret tt
  | _ => Ret tt
  end.

(** [ontrack] of lines 171-174 and 239-242. *)
Definition ontrack (event : PcEvent) : Prog unit :=
  match event with
  | OnTrack remote => log "Received remote stream" ;; joinedRoom remote false
  | _ => Ret tt
  end.

(** [onicecandidate] of lines 176-183 and 244-251. *)
Definition onicecandidate (target : PeerId) (event : PcEvent) : Prog unit :=
  match event with
  | OnIceCandidate (Some candidate) =>
      socket_emit "ice-candidate" (OCandidate target candidate)
  | _ => Ret tt
  end.

(** [oniceconnectionstatechange] of lines 185-189 and 292-296. *)
Definition oniceconnectionstatechange (event : PcEvent) : Prog unit :=
  match event with
  | OnIceConnectionStateChange st =>
      if st =? "disconnected" then console_log "Peer disconnected" else Ret tt
  | _ => Ret tt
  end.

(** [onerror] of lines 298-300. *)
Definition onerror (event : PcEvent) : Prog unit :=
  match event with
  | OnError => console_error "Peer connection error: "
  | _ => Ret tt
  end.

(** Lines 228-305. *)
Definition connectToPeer (localStream : Stream) (peerID : PeerId) : Prog unit :=
  sk <- socket_value ;
  if peerID =? socket_id host sk then Ret tt else
  log ("Connecting to peer: " ++ peerID) ;;
  try_catch
    (peerConnection <- new_RTCPeerConnection peerID ;
     forEach (getTracks localStream) (fun track =>
       invoke (PcMethod peerConnection "addTrack"
                 (PTrack track (stream_id localStream)))) ;;
     set_handler peerConnection "ontrack" ontrack ;;
     set_handler peerConnection "onicecandidate" (onicecandidate peerID) ;;
     socket_on "ice-candidate" (on_ice_candidate peerID peerConnection) ;;
     offer <- await_desc (PcMethod peerConnection "createOffer" PNone) ;
     await_unit (PcMethod peerConnection "setLocalDescription" (PDesc offer)) ;;
     socket_emit "offer" (OOffer peerID offer) ;;
     socket_on "answer" (on_answer peerID peerConnection) ;;
     socket_on "ice-candidate" (on_ice_candidate peerID peerConnection) ;;
     set_handler peerConnection "oniceconnectionstatechange"
       oniceconnectionstatechange ;;
     set_handler peerConnection "onerror" onerror)
    (fun _ => console_error "Error connecting to peer:").

(** The ["discover"] listener, lines 149-159. *)
Definition on_discover (localStream : Stream) (discoveryData : InMsg)
  : Prog unit :=
  match discoveryData with
  | InDiscover peers =>
      log "discovered" ;;
      forEach peers (fun peerID =>
        sk <- socket_value ;
        if negb (peerID =? socket_id host sk)
        then spawn (connectToPeer localStream peerID)
        else Ret tt) ;;
      emit "opened-room" (AStr (roomId props))
  | _ => Ret tt
  end.

(** The ["request"] listener, lines 161-226. *)
Definition on_request (localStream : Stream) (request : InMsg) : Prog unit :=
  match request with
  | InRequest socketId =>
      log "request" ;;
      try_catch
        (peer <- new_RTCPeerConnection socketId ;
         forEach (getTracks localStream) (fun track =>
           invoke (PcMethod peer "addTrack"
                     (PTrack track (stream_id localStream)))) ;;
         set_handler peer "ontrack" ontrack ;;
         set_handler peer "onicecandidate" (onicecandidate socketId) ;;
         set_handler peer "oniceconnectionstatechange"
           oniceconnectionstatechange ;;
         offer <- await_desc (PcMethod peer "createOffer" PNone) ;
         await_unit (PcMethod peer "setLocalDescription" (PDesc offer)) ;;
         socket_emit "offer" (OOffer socketId offer) ;;
         socket_on "answer" (on_answer socketId peer) ;;
         socket_on "ice-candidate" (on_ice_candidate socketId peer))
        (fun _ => console_error "Error accepting peer request:")
  | _ => Ret tt
  end.

(** The ["connect_error"] listener, lines 114-117. *)
Definition on_connect_error (m : InMsg) : Prog unit :=
  match m with
  | InConnectError err =>
      console_error "Socket connection error:" ;;
      emit "socket-error" (AStr err)
  | _ => Ret tt
  end.

(** Lines 127-134. *)
Definition constraints : Constraints :=
  match truthy (deviceId props), enableVideo props with
  | Some d, true => mkConstraints (VideoExact d) (enableAudio props)
  | _, _ => mkConstraints (VideoFlag (enableVideo props)) (enableAudio props)
  end.

(** [navigator.mediaDevices.getUserMedia(c)], awaited. *)
Definition getUserMedia (c : Constraints) : Prog Stream :=
  if mediaDevices host then await_stream (GetUserMedia c)
  else Throw (TypeError "Cannot read properties of undefined").

(** Lines 97-309. *)
Definition joinRoom : Prog unit :=
  log "Joining room..." ;;
  match truthy (jwtToken props) with
  | None => console_error "JWT Token is Required"
  | Some token =>
      sk <- io (socketURL props) token ;
      set_socket (Some sk) ;;
      socket_on "connect_error" on_connect_error ;;
      got <- try_catch
               (localStream <- getUserMedia constraints ;
                log "getUserMedia success" ;;
                Ret (Some localStream))
               (fun error =>
                  console_error "getUserMedia failed:" ;;
                  emit "media-error" (AErr error) ;;
                  Ret None) ;
      match got with
      | None => Ret tt
      | Some localStream =>
          joinedRoom localStream true ;;
          socket_on "discover" (on_discover localStream) ;;
          socket_on "request" (on_request localStream) ;;
          socket_emit "discover" (ORoom (roomId props))
      end
  end.

(** Lines 356-374. *)
Definition leaveRoom : Prog unit :=
  log "Leaving room" ;;
  Get (fun st =>
    forEach (videoList st) (fun v =>
      forEach (getTracks (stream v)) (fun t => invoke (TrackStop t))) ;;
    set_videoList [] ;;
    match socket st with
    | Some sk =>
        Disconnect sk (act (SocketDisconnect sk)) ;;
        set_socket None
    | None => Ret tt
    end ;;
    emit "left-room" (AStr (roomId props))).

(** Lines 380-394. *)
Definition getCanvas : Prog (option Canvas) :=
  Get (fun st =>
    match videos st with
    | [] =>
        console_warn "No video element found for capturing." ;;
        Ret None
    | video :: _ =>
        Ret (Some (mkCanvas (clientHeight video) (clientWidth video)
                     (el_id video)))
    end).

(** Lines 376-378. *)
Definition capture : Prog string :=
  got <- getCanvas ;
  match got with
  | None => Throw (TypeError "Cannot read properties of null")
  | Some canvas => Ret (toDataURL host canvas (screenshotFormat props))
  end.

(** Lines 396-416. *)
Definition shareScreen : Prog unit :=
  log "Starting screen share..." ;;
  if negb (mediaDevices host)
  then console_error "HTTPS is required to load cameras for screen sharing." ;;
       emit "media-error" (AStr "HTTPS is required for screen sharing")
  else try_catch
         (screenStream <- await_stream GetDisplayMedia ;
          joinedRoom screenStream true ;;
          emit "share-started" (AStr (stream_id screenStream)))
         (fun error =>
            console_error "Error sharing screen:" ;;
            emit "media-error" (AErr error)).

End Component.

(** ** The event loop *)

Inductive Outcome (A : Type) :=
| Returned (a : A)
| Thrown (e : Error)
| Suspended.

Arguments Returned {A} a.
Arguments Thrown {A} e.
Arguments Suspended {A}.

Record SocketObj := mkSocketObj
  { sk_open : bool;
    sk_listeners : list (string * (InMsg -> Prog unit)) }.

(** [pc_owner] is the peer id captured by the closure that created the
    connection ([peerID] in [connectToPeer], [request.socketId] in the
    request listener). *)
Record PcObj := mkPcObj
  { pc_owner : PeerId;
    pc_handlers : list (string * (PcEvent -> Prog unit)) }.

Record Task := mkTask
  { task_id : nat; task_call : Call; task_k : Settled -> Prog unit }.

Record State := mkState
  { store : Store;
    sockets : list SocketObj;
    pcs : list PcObj;
    pending : list Task;
    next_task : nat;
    ticks : list (Prog unit);
    trace : list Action }.

Definition init : State :=
  mkState (mkStore None [] []) [] [] [] 0 [] [].

Fixpoint update_nth {X} (n : nat) (f : X -> X) (l : list X) {struct l}
  : list X :=
  match l, n with
  | [], _ => []
  | x :: l', 0 => f x :: l'
  | x :: l', S n' => x :: update_nth n' f l'
  end.

Definition set_store (st : Store) (s : State) : State :=
  mkState st (sockets s) (pcs s) (pending s) (next_task s) (ticks s) (trace s).

Definition set_sockets (v : list SocketObj) (s : State) : State :=
  mkState (store s) v (pcs s) (pending s) (next_task s) (ticks s) (trace s).

Definition set_pcs (v : list PcObj) (s : State) : State :=
  mkState (store s) (sockets s) v (pending s) (next_task s) (ticks s) (trace s).

Definition set_pending (v : list Task) (s : State) : State :=
  mkState (store s) (sockets s) (pcs s) v (next_task s) (ticks s) (trace s).

Definition set_ticks (v : list (Prog unit)) (s : State) : State :=
  mkState (store s) (sockets s) (pcs s) (pending s) (next_task s) v (trace s).

Definition record (a : Action) (s : State) : State :=
  mkState (store s) (sockets s) (pcs s) (pending s) (next_task s) (ticks s)
    (trace s ++ [a]).

Definition park {A : Type} (c : Call) (k : Settled -> Prog A) (s : State) : State :=
  mkState (store s) (sockets s) (pcs s)
    (mkTask (next_task s) c (fun o => k o ;; Ret tt) :: pending s)
    (S (next_task s)) (ticks s) (trace s).

(** What becomes of an async function or a listener that stops: an
    exception nobody caught is reported by the host. *)
Definition finish {A : Type} (r : Outcome A * State) : State :=
  match fst r with
  | Thrown e => record (Uncaught e) (snd r)
  | _ => snd r
  end.

(** Runs [p] up to its end, its first uncaught exception or its first
    [await]. *)
Fixpoint exec {A : Type} (p : Prog A) (s : State) : Outcome A * State :=
  match p with
  | Ret a => (Returned a, s)
  | Throw e => (Thrown e, s)
  | Do a k => exec k (record a s)
  | Get k => exec (k (store s)) s
  | Put st k => exec k (set_store st s)
  | NewSocket k =>
      exec (k (length (sockets s)))
        (set_sockets (sockets s ++ [mkSocketObj true []]) s)
  | NewPC owner k =>
      exec (k (length (pcs s))) (set_pcs (pcs s ++ [mkPcObj owner []]) s)
  | On sk ev h k =>
      exec k
        (set_sockets
           (update_nth sk
              (fun so =>
                 mkSocketObj (sk_open so) (sk_listeners so ++ [(ev, h)]))
              (sockets s)) s)
  | SetHandler pc slot h k =>
      exec k
        (set_pcs
           (update_nth pc
              (fun po => mkPcObj (pc_owner po) ((slot, h) :: pc_handlers po))
              (pcs s)) s)
  | Disconnect sk k =>
      exec k
        (set_sockets
           (update_nth sk (fun so => mkSocketObj false (sk_listeners so))
              (sockets s)) s)
  | Await c k => (Suspended, park c k s)
  | NextTick cb k => exec k (set_ticks (ticks s ++ [cb]) s)
  | Spawn q k => exec k (finish (exec q s))
  end.

Definition run {A : Type} (p : Prog A) (s : State) : State := finish (exec p s).

(** What the component's environment can do to it. *)
Inductive Event :=
| CallJoinRoom
| CallLeaveRoom
| CallShareScreen
| CallCapture
| CallGetCanvas
| Rendered (els : list VideoElement)
| Tick
| SocketMsg (sk : nat) (m : InMsg)
| Settle (task : nat) (o : Settled)
| PcFire (pc : nat) (e : PcEvent).

Fixpoint take_task (id : nat) (l : list Task) : option (Task * list Task) :=
  match l with
  | [] => None
  | t :: l' =>
      if Nat.eqb (task_id t) id then Some (t, l')
      else match take_task id l' with
           | Some (t', r) => Some (t', t :: r)
           | None => None
           end
  end.

(** The host settles a promise with a value of the kind the call yields. *)
Definition settles (c : Call) (o : Settled) : bool :=
  match o, c with
  | Rejected _, _ => true
  | Resolved (VStream _), (GetUserMedia _ | GetDisplayMedia) => true
  | Resolved (VDesc _), PcMethod _ "createOffer" _ => true
  | Resolved VUndefined, PcMethod _ m _ => negb (m =? "createOffer")
  | Resolved VUndefined, TrackStop _ => true
  | _, _ => false
  end.

Fixpoint assoc {X} (key : string) (l : list (string * X)) : option X :=
  match l with
  | [] => None
  | (k, x) :: l' => if k =? key then Some x else assoc key l'
  end.

Definition listeners_for (ev : string) (so : SocketObj)
  : list (InMsg -> Prog unit) :=
  map snd (filter (fun l => fst l =? ev) (sk_listeners so)).

Section Loop.

Variable host : Host.
Variable props : Props.

Definition step (s : State) (e : Event) : State :=
  match e with
  | CallJoinRoom => run (joinRoom host props) s
  | CallLeaveRoom => run (leaveRoom props) s
  | CallShareScreen => run (shareScreen host props) s
  | CallCapture => run (capture host props) s
  | CallGetCanvas => run getCanvas s
  | Rendered els =>
      set_store (mkStore (socket (store s)) (videoList (store s)) els) s
  | Tick => fold_left (fun s' cb => run cb s') (ticks s) (set_ticks [] s)
  | SocketMsg sk m =>
      match nth_error (sockets s) sk with
      | Some so =>
          if sk_open so
          then fold_left (fun s' h => run (h m) s')
                 (listeners_for (msg_name m) so) s
          else s
      | None => s
      end
  | Settle id o =>
      match take_task id (pending s) with
      | Some (t, rest) =>
          if settles (task_call t) o
          then run (task_k t o) (set_pending rest s)
          else s
      | None => s
      end
  | PcFire pc e =>
      match nth_error (pcs s) pc with
      | Some po =>
          match assoc (pc_slot e) (pc_handlers po) with
          | Some h => run (h e) s
          | None => s
          end
      | None => s
      end
  end.

Definition steps (s : State) (es : list Event) : State := fold_left step es s.

End Loop.

(** ** Vocabulary of the statements *)

(** [acts] appended to the trace, nothing else touched. *)
Definition records (acts : list Action) (s : State) : State :=
  mkState (store s) (sockets s) (pcs s) (pending s) (next_task s) (ticks s)
    (trace s ++ acts).

(** The program that performs [acts] and goes on as [q]. *)
Definition prepend {A : Type} (acts : list Action) (q : Prog A) : Prog A :=
  fold_right Do q acts.

(** A program that only performs [acts], whatever follows it. *)
Definition straight (p : Prog unit) (acts : list Action) : Prop :=
  forall B (k : unit -> Prog B), bind p k = prepend acts (k tt).

(** What [log message] writes. *)
Definition logged (props : Props) (message : string) : list Action :=
  if enableLogs props then [ConsoleLog message] else [].

(** The actions of [t] that come after the first [n]. *)
Definition since (n : nat) (t : list Action) : list Action := skipn n t.


Definition is_emit (ev : string) (a : Action) : bool :=
  match a with Emit e _ => e =? ev | _ => false end.

Definition is_any_emit (a : Action) : bool :=
  match a with Emit _ _ => true | _ => false end.

Definition is_pc_call (meth : string) (a : Action) : bool :=
  match a with Invoke (PcMethod _ m _) => m =? meth | _ => false end.

Definition is_pc_call_on (pc : nat) (meth : string) (a : Action) : bool :=
  match a with
  | Invoke (PcMethod n m _) => Nat.eqb n pc && (m =? meth)
  | _ => false
  end.

Definition is_io (a : Action) : bool :=
  match a with Io _ _ _ => true | _ => false end.


Definition count (f : Action -> bool) (t : list Action) : nat :=
  length (filter f t).


(** The ids in the stream registry. *)
Definition registry_ids (s : State) : list string :=
  map video_id (videoList (store s)).

Definition entries_for (streamId : string) (s : State) : nat :=
  length (filter (fun v => video_id v =? streamId) (videoList (store s))).

(** Every name the component ever passes to [socket.emit], to a peer
    connection and to Vue's [emit]. *)
Definition in_vocabulary (a : Action) : bool :=
  match a with
  | SocketEmit _ ev _ =>
      existsb (String.eqb ev) ["discover"; "offer"; "ice-candidate"]
  | Invoke (PcMethod _ m _) =>
      existsb (String.eqb m)
        ["addTrack"; "createOffer"; "setLocalDescription";
         "setRemoteDescription"; "addIceCandidate"]
  | Emit ev _ =>
      existsb (String.eqb ev)
        ["joined-room"; "opened-room"; "left-room"; "media-error";
         "socket-error"; "share-started"]
  | _ => true
  end.

(** The registry invariant: stream ids are unique. *)
Definition unique_ids (st : Store) : Prop := NoDup (map video_id (videoList st)).

(** *** Programs that keep an invariant

    [ok P I p]: every action [p] can perform satisfies [P] and every store
    it writes satisfies [I], given that the stores it reads do; the same
    for every listener, handler, callback and continuation it leaves
    behind. *)
Section Invariant.

Variable P : Action -> Prop.
Variable I : Store -> Prop.

Fixpoint ok {A : Type} (p : Prog A) : Prop :=
  match p with
  | Ret _ => True
  | Throw _ => True
  | Do a k => P a /\ ok k
  | Get k => forall st, I st -> ok (k st)
  | Put st k => I st /\ ok k
  | NewSocket k => forall n, ok (k n)
  | NewPC _ k => forall n, ok (k n)
  | On _ _ h k => (forall m, ok (h m)) /\ ok k
  | SetHandler _ _ h k => (forall e, ok (h e)) /\ ok k
  | Disconnect _ k => ok k
  | Await _ k => forall o, ok (k o)
  | NextTick cb k => ok cb /\ ok k
  | Spawn q k => ok q /\ ok k
  end.

Definition Inv (s : State) : Prop :=
  I (store s) /\
  Forall P (trace s) /\
  Forall (fun so => Forall (fun l => forall m, ok (snd l m)) (sk_listeners so))
    (sockets s) /\
  Forall (fun po => Forall (fun l => forall e, ok (snd l e)) (pc_handlers po))
    (pcs s) /\
  Forall (fun t => forall o, ok (task_k t o)) (pending s) /\
  Forall (fun cb => ok cb) (ticks s).

End Invariant.

(** The two properties every state of every run has: trace within the
    vocabulary, registry ids unique. *)
Definition vocab (a : Action) : Prop := in_vocabulary a = true.

Definition good (s : State) : Prop := Inv vocab unique_ids s.

(** ** Concrete hosts, props and streams used as inputs *)

(** A browser: its global scope has no [nextTick]. *)
Definition browser : Host :=
  mkHost false true (fun _ => "self") (fun _ format => "data:" ++ format).

(** A host whose global scope does bind [nextTick]. *)
Definition browser_with_nextTick : Host :=
  mkHost true true (fun _ => "self") (fun _ format => "data:" ++ format).

Definition demo_props : Props :=
  mkProps "abc123" "https://relay.example" "image/jpeg" true true false None
    (Some "token").

Definition props_without_token : Props :=
  mkProps "abc123" "https://relay.example" "image/jpeg" true true false None
    None.

Definition cam : Stream := mkStream "cam" ["a0"; "v0"].

(** The component joined to the room: mounted, camera granted. *)
Definition joined : State :=
  steps browser_with_nextTick demo_props init
    [CallJoinRoom; Settle 0 (Resolved (VStream cam))].

(** The component in a room with one live peer connection (a request from
    "p2" was accepted). *)
Definition joined_with_peer : State :=
  steps browser_with_nextTick demo_props joined
    [SocketMsg 0 (InRequest "p2");
     Settle 1 (Resolved (VDesc "sdp-1"));
     Settle 2 (Resolved VUndefined)].

(** What [leaveRoom] stops: every track of every stream in the registry. *)
Definition stops (vl : list Video) : list Action :=
  flat_map (fun v => map (fun t => Invoke (TrackStop t)) (getTracks (stream v)))
    vl.

(** What [leaveRoom] does to the signaling channel. *)
Definition disconnects (sk : option nat) : list Action :=
  match sk with
  | Some n => [SocketDisconnect n]
  | None => []
  end.

(** The entry [joinedRoom] pushes for [stream]. *)
Definition entry (stream : Stream) (isLocal : bool) : Video :=
  mkVideo (stream_id stream) isLocal stream isLocal.

(** A state whose template ref [videos] holds one rendered element. *)
Definition rendered : State :=
  step browser demo_props init (Rendered [mkVideoElement "cam" 160 213 None]).

(** ** Contracts of parked continuations

    An async function that awaits leaves a continuation behind; the host
    resumes it in whatever state the component is in by then.  These
    predicates say what a continuation does in every such state. *)

(** On rejection the continuation writes [msg] to [console.error] and ends:
    no event, no retry, nothing else. *)
Definition only_logs (msg : string) (k : Settled -> Prog unit)
  : Prop :=
  forall s e,
    exec (k (Rejected e)) s = (Returned tt, record (ConsoleError msg) s).

(** On success the continuation ends without a trace. *)
Definition settles_quietly (k : Settled -> Prog unit) : Prop :=
  forall s v, exec (k (Resolved v)) s = (Returned tt, s).

(** The continuation parked at [setLocalDescription(offer)]: resumed with
    the socket set, it sends the one [offer] to [peerID], registers the
    ["answer"] and ["ice-candidate"] listeners and ends. *)
Definition offer_sent (peerID : PeerId) (offer : Sdp)
           (k : Settled -> Prog unit) : Prop :=
  forall s sk,
    socket (store s) = Some sk ->
    let r := exec (k (Resolved VUndefined)) s in
    fst r = Returned tt /\
    pending (snd r) = pending s /\
    trace (snd r) =
      (trace s ++
       [SocketEmit sk "offer" (OOffer peerID offer);
        SocketOn sk "answer"; SocketOn sk "ice-candidate"])%list.

(** The continuation parked at [createOffer()] on connection [pc]: given
    the offer it calls [setLocalDescription(offer)] and parks again, with a
    continuation that sends the offer; a failure of either call is only
    logged as [err]. *)
Definition negotiates (err : string) (peerID : PeerId) (pc : nat)
           (k : Settled -> Prog unit) : Prop :=
  only_logs err k /\
  forall s offer, exists k',
    exec (k (Resolved (VDesc offer))) s =
      (Suspended,
       mkState (store s) (sockets s) (pcs s)
         (mkTask (next_task s)
            (PcMethod pc "setLocalDescription" (PDesc offer)) k' :: pending s)
         (S (next_task s)) (ticks s)
         (trace s ++ [Invoke (PcMethod pc "setLocalDescription" (PDesc offer))]))
    /\ offer_sent peerID offer k'
    /\ only_logs err k'.


(** The [addTrack] calls that attach the local stream to connection [pc]. *)
Definition attach (pc : nat) (localStream : Stream) : list Action :=
  map (fun track =>
         Invoke (PcMethod pc "addTrack" (PTrack track (stream_id localStream))))
      (getTracks localStream).


(** ** Runs used as counterexamples *)





(** The offer to "p2" was sent, its answer arrives, and
    [setRemoteDescription] rejects it. *)
Definition answer_rejected : State :=
  steps browser_with_nextTick demo_props joined
    [SocketMsg 0 (InDiscover ["p2"]);
     Settle 1 (Resolved (VDesc "sdp-1"));
     Settle 2 (Resolved VUndefined);
     SocketMsg 0 (InAnswer "p2" "sdp-answer");
     Settle 3 (Rejected (HostError "InvalidStateError"))].

(** ** Default room ids ([generateRoomId], lines 16-22) and the
       [socketURL] validator (line 36) *)

(** The digit [d] of [Number.prototype.toString(16)]. *)
Definition hex_digit (d : nat) : ascii :=
  nth d (list_ascii_of_string "0123456789abcdef") "0"%char.

(** [byte.toString(16)] for an element of a [Uint8Array]: one or two
    digits, no leading zero. *)
Definition toString16 (byte : Byte.byte) : string :=
  let n := Byte.to_nat byte in
  if Nat.eqb (n / 16) 0 then String (hex_digit (n mod 16)) ""
  else String (hex_digit (n / 16)) (String (hex_digit (n mod 16)) "").

(** [s.padStart(targetLength, padString)] for a one-character pad. *)
Definition padStart (targetLength : nat) (padString : ascii) (s : string)
  : string :=
  string_of_list_ascii (repeat padString (targetLength - String.length s)) ++ s.

(** Lines 17-22; [buffer] is the [Uint8Array(20)] as [getRandomValues]
    filled it. *)
Definition generateRoomId (buffer : list Byte.byte) : string :=
  String.concat ""
    (map (fun byte => padStart 2 "0"%char (toString16 byte)) buffer).

Definition is_hex (c : ascii) : bool :=
  existsb (Ascii.eqb c) (list_ascii_of_string "0123456789abcdef").

(** The value of a hex digit, and the reading back of a room id, used to
    show that ids determine their buffers. *)
Definition hex_value (c : ascii) : nat :=
  let n := nat_of_ascii c in
  if Nat.ltb n 58 then n - 48 else n - 87.

Fixpoint read_hex (s : string) : option (list Byte.byte) :=
  match s with
  | "" => Some []
  | String c1 (String c2 rest) =>
      match Byte.of_nat (16 * hex_value c1 + hex_value c2), read_hex rest with
      | Some b, Some l => Some (b :: l)
      | _, _ => None
      end
  | _ => None
  end.

(** Line 36: [validator: (url) => url.startsWith('https://')]. *)
Definition socketURL_validator (url : string) : bool :=
  String.prefix "https://" url.

(** ** What every action and every registry entry of a run satisfies *)

(** The socket is opened with the configured URL and token only; [log]
    writes only when logs are enabled (the one unconditional [console.log]
    is "Peer disconnected"); media is requested only where
    [navigator.mediaDevices] exists, the camera with the configured
    constraints; the room announced to the relay and to the parent is the
    configured one. *)
Definition sound_action (host : Host) (props : Props) (a : Action) : Prop :=
  match a with
  | Io _ url token =>
      url = socketURL props /\ truthy (jwtToken props) = Some token
  | ConsoleLog m => enableLogs props = true \/ m = "Peer disconnected"
  | Invoke (GetUserMedia c) =>
      mediaDevices host = true /\ c = constraints props
  | Invoke GetDisplayMedia => mediaDevices host = true
  | SocketEmit _ ev d => ev = "discover" -> d = ORoom (roomId props)
  | Emit ev arg =>
      ev = "opened-room" \/ ev = "left-room" -> arg = AStr (roomId props)
  | _ => True
  end.

(** A registry entry carries the id of its stream and is muted exactly
    when it is local. *)
Definition sound_entry (v : Video) : Prop :=
  video_id v = stream_id (stream v) /\ muted v = isLocal v.

Definition sound_store (st : Store) : Prop := Forall sound_entry (videoList st).

(** A program all of whose actions and stores are sound. *)
Definition sound (host : Host) (props : Props) {A : Type} (p : Prog A) : Prop :=
  ok (sound_action host props) sound_store p.

(** ** Further contracts of parked continuations *)


(** What the [nextTick] callback of [joinedRoom stream _] does to a rendered
    element. *)
Definition bound_to (stream : Stream) (videoElement : VideoElement)
  : VideoElement :=
  if el_id videoElement =? stream_id stream
  then mkVideoElement (el_id videoElement) (clientHeight videoElement)
         (clientWidth videoElement) (Some stream)
  else videoElement.

(** The registry after [joinedRoom stream isLocal]. *)
Definition registered (stream : Stream) (isLocal : bool) (st : Store) : Store :=
  match find (fun video => video_id video =? stream_id stream) (videoList st)
  with
  | Some _ => st
  | None =>
      mkStore (socket st) (videoList st ++ [entry stream isLocal]) (videos st)
  end.

(** A screen stream. *)
Definition screen : Stream := mkStream "screen" ["s0"].

(** A run in which the connection to "p2" reports that it is
    disconnected, and a run that starts a screen share. *)
Definition peer_disconnected_run : list Event :=
  [CallJoinRoom; Settle 0 (Resolved (VStream cam));
   SocketMsg 0 (InRequest "p2");
   PcFire 0 (OnIceConnectionStateChange "disconnected")].

Definition share_run : list Event :=
  [CallJoinRoom; Settle 0 (Resolved (VStream cam)); CallShareScreen;
   Settle 1 (Resolved (VStream screen)); CallLeaveRoom].

(** A host without [navigator.mediaDevices] (a page not served over
    HTTPS). *)
Definition insecure_page : Host :=
  mkHost false false (fun _ => "self") (fun _ format => "data:" ++ format).

(** ** Programs that leave the listening of the sockets alone

    [quiet F D I p]: [p] opens no socket, registers no listener for an event
    name in [F], disconnects a socket only if [D] allows it, and keeps [I]
    true of the refs; the same for everything it leaves behind. *)
Section Quiet.

Variable F : string -> bool.
Variable D : bool.
Variable I : Store -> Prop.

Fixpoint quiet {A : Type} (p : Prog A) : Prop :=
  match p with
  | Ret _ => True
  | Throw _ => True
  | Do _ k => quiet k
  | Get k => forall st, I st -> quiet (k st)
  | Put st k => I st /\ quiet k
  | NewSocket _ => False
  | NewPC _ k => forall n, quiet (k n)
  | On _ ev h k => F ev = false /\ (forall m, quiet (h m)) /\ quiet k
  | SetHandler _ _ h k => (forall e, quiet (h e)) /\ quiet k
  | Disconnect _ k => D = true /\ quiet k
  | Await _ k => forall o, quiet (k o)
  | NextTick cb k => quiet cb /\ quiet k
  | Spawn q k => quiet q /\ quiet k
  end.

(** The socket [so'] listens as [so] does to the events of [F], and is
    open if [so] is (unless disconnecting is allowed). *)
Definition same_listening (so so' : SocketObj) : Prop :=
  (forall ev, F ev = true -> listeners_for ev so' = listeners_for ev so) /\
  (D = false -> sk_open so' = sk_open so).

Definition QInv (s : State) : Prop :=
  I (store s) /\
  Forall (fun so => Forall (fun l => forall m, quiet (snd l m)) (sk_listeners so))
    (sockets s) /\
  Forall (fun po => Forall (fun l => forall e, quiet (snd l e)) (pc_handlers po))
    (pcs s) /\
  Forall (fun t => forall o, quiet (task_k t o)) (pending s) /\
  Forall (fun cb => quiet cb) (ticks s).

(** What a quiet program makes of [s]. *)
Definition kept (s s' : State) : Prop :=
  QInv s' /\ Forall2 same_listening (sockets s) (sockets s').

End Quiet.

(** The event names and the condition on the refs for the two uses:
    nothing but [joinRoom] listens to ["connect_error"]; and between a join
    and the next join or leave nothing listens to ["discover"], closes a
    socket or moves the socket ref. *)
Definition is_connect_error (ev : string) : bool := ev =? "connect_error".


Definition any_store (st : Store) : Prop := True.


(** Every socket has the one ["connect_error"] listener of lines 114-117. *)
Definition reports_errors (s : State) : Prop :=
  Forall (fun so => listeners_for "connect_error" so = [on_connect_error])
    (sockets s).



(** ** Initiators, with all they keep *)







(** ** While the camera is being acquired *)




(** * Theorems *)

(** ** Generic facts about programs *)

Lemma bind_prepend {A B} (acts : list Action) (q : Prog A) (f : A -> Prog B) :
  bind (prepend acts q) f = prepend acts (bind q f).
Proof.
  induction acts as [|a acts IH]; simpl; [reflexivity|].
  now rewrite IH.
Qed.

Lemma try_catch_prepend {A} (acts : list Action) (q : Prog A) h :
  try_catch (prepend acts q) h = prepend acts (try_catch q h).
Proof.
  induction acts as [|a acts IH]; simpl; [reflexivity|].
  now rewrite IH.
Qed.

Lemma prepend_app {A} (a1 a2 : list Action) (q : Prog A) :
  prepend (a1 ++ a2) q = prepend a1 (prepend a2 q).
Proof. unfold prepend. now rewrite fold_right_app. Qed.

Lemma records_nil s : records [] s = s.
Proof. destruct s; unfold records; simpl. now rewrite app_nil_r. Qed.

Lemma records_cons a acts s : records (a :: acts) s = records acts (record a s).
Proof. unfold records, record; simpl. now rewrite <- app_assoc. Qed.

Lemma records_app a1 a2 s : records (a1 ++ a2) s = records a2 (records a1 s).
Proof. unfold records; simpl. now rewrite app_assoc. Qed.

Lemma straight_act a : straight (act a) [a].
Proof. intros B k. reflexivity. Qed.

Lemma straight_ret : straight (Ret tt) [].
Proof. intros B k. reflexivity. Qed.

Lemma straight_seq p q a1 a2 :
  straight p a1 -> straight q a2 -> straight (p ;; q) (a1 ++ a2).
Proof.
  intros Hp Hq B k. rewrite (Hp _ (fun _ => q)), bind_prepend, Hq.
  now rewrite prepend_app.
Qed.

Lemma straight_forEach {X} (l : list X) f (g : X -> list Action) :
  (forall x, straight (f x) (g x)) -> straight (forEach l f) (flat_map g l).
Proof.
  intros Hf. induction l as [|x l IH]; simpl.
  - apply straight_ret.
  - apply straight_seq; [apply Hf | exact IH].
Qed.

Lemma exec_prepend {A} (acts : list Action) (q : Prog A) s :
  exec (prepend acts q) s = exec q (records acts s).
Proof.
  revert s. induction acts as [|a acts IH]; intros s; simpl.
  - now rewrite records_nil.
  - now rewrite IH, records_cons.
Qed.

Lemma straight_log props message :
  straight (log props message) (logged props message).
Proof.
  unfold log, logged. destruct (enableLogs props).
  - apply straight_act.
  - apply straight_ret.
Qed.


(** ** Programs that keep an invariant keep it along every run *)

Lemma Forall_update_nth {X} (Q : X -> Prop) n f (l : list X) :
  Forall Q l -> (forall x, Q x -> Q (f x)) -> Forall Q (update_nth n f l).
Proof.
  intros Hl Hf. revert n. induction Hl as [|x l Hx Hl IH]; intros n; simpl.
  - constructor.
  - destruct n; constructor; auto.
Qed.

Section Preservation.

Variable P : Action -> Prop.
Variable I : Store -> Prop.
Hypothesis P_uncaught : forall e, P (Uncaught e).

Lemma ok_bind {A B} (p : Prog A) (f : A -> Prog B) :
  ok P I p -> (forall a, ok P I (f a)) -> ok P I (bind p f).
Proof.
  intros Hp Hf. induction p; simpl in *; intuition auto.
Qed.

Lemma ok_try_catch {A} (p : Prog A) h :
  ok P I p -> (forall e, ok P I (h e)) -> ok P I (try_catch p h).
Proof.
  intros Hp Hh. induction p; simpl in *; intuition auto.
Qed.

Lemma ok_forEach {X} (l : list X) f :
  (forall x, ok P I (f x)) -> ok P I (forEach l f).
Proof.
  intros Hf. induction l as [|x l IH]; simpl; [exact Logic.I|].
  apply ok_bind; auto.
Qed.

Lemma ok_act a : P a -> ok P I (act a).
Proof. simpl; auto. Qed.

Lemma Inv_record a s : P a -> Inv P I s -> Inv P I (record a s).
Proof.
  intros Ha (H1 & H2 & H3).
  unfold Inv; simpl; repeat apply conj; auto; try apply H3.
  apply Forall_app; split; auto.
Qed.

Lemma exec_Inv {A} (p : Prog A) s :
  ok P I p -> Inv P I s -> Inv P I (snd (exec p s)).
Proof.
  revert s. induction p as
    [T a0|T e|T act0 k IH|T k IH|T st k IH|T k IH|T o k IH|T sk ev h IHh k IH
    |T pc sl h IHh k IH|T sk k IH|T c k IH|T cb IHcb k IH|T q IHq k IH];
    intros s Hok Hs; simpl in *; auto.
  - destruct Hok. apply IH; auto. apply Inv_record; auto.
  - apply IH; auto. apply Hok, Hs.
  - destruct Hok. apply IH; auto.
    destruct Hs as (H1 & H2). split; auto.
  - apply IH; auto. destruct Hs as (H1 & H2 & H3 & H4).
    unfold Inv; simpl; repeat apply conj; auto; try apply H4.
    apply Forall_app; split; auto.
  - apply IH; auto. destruct Hs as (H1 & H2 & H3 & H4 & H5).
    unfold Inv; simpl; repeat apply conj; auto; try apply H5.
    apply Forall_app; split; auto.
  - destruct Hok as (Hh & Hk). apply IH; auto.
    destruct Hs as (H1 & H2 & H3 & H4).
    unfold Inv; simpl; repeat apply conj; auto; try apply H4.
    apply Forall_update_nth; auto. intros so Hso; simpl.
    apply Forall_app; split; auto.
  - destruct Hok as (Hh & Hk). apply IH; auto.
    destruct Hs as (H1 & H2 & H3 & H4 & H5).
    unfold Inv; simpl; repeat apply conj; auto; try apply H5.
    apply Forall_update_nth; auto. intros po Hpo; simpl. constructor; auto.
  - apply IH; auto.
    destruct Hs as (H1 & H2 & H3 & H4).
    unfold Inv; simpl; repeat apply conj; auto; try apply H4.
    apply Forall_update_nth; auto.
  - destruct Hs as (H1 & H2 & H3 & H4 & H5 & H6).
    unfold Inv; simpl; repeat apply conj; auto.
    constructor; auto. intros o; simpl. apply ok_bind; simpl; auto.
  - destruct Hok as (Hcb & Hk). apply IH; auto.
    destruct Hs as (H1 & H2 & H3 & H4 & H5 & H6).
    unfold Inv; simpl; repeat apply conj; auto.
    apply Forall_app; split; auto.
  - destruct Hok as (Hq & Hk). apply IH; auto.
    unfold finish. pose proof (IHq s Hq Hs) as Hq'.
    destruct (fst (exec q s)); auto. apply Inv_record; auto.
Qed.

Lemma run_Inv {A} (p : Prog A) s :
  ok P I p -> Inv P I s -> Inv P I (run p s).
Proof.
  intros Hok Hs. unfold run, finish.
  pose proof (exec_Inv p s Hok Hs) as H.
  destruct (fst (exec p s)); auto. apply Inv_record; auto.
Qed.

Lemma fold_run_Inv {X} (l : list X) (f : X -> Prog unit) s :
  Forall (fun x => ok P I (f x)) l -> Inv P I s ->
  Inv P I (fold_left (fun s' x => run (f x) s') l s).
Proof.
  intros Hl. revert s. induction Hl as [|x l Hx Hl IH]; intros s Hs; simpl.
  - exact Hs.
  - apply IH. apply run_Inv; auto.
Qed.

End Preservation.

(** ** The component's programs keep the trace within the vocabulary and
       the registry ids unique *)

Lemma find_none_not_in (vl : list Video) (i : string) :
  find (fun video => video_id video =? i) vl = None ->
  ~ In i (map video_id vl).
Proof.
  induction vl as [|v vl IH]; simpl; [tauto|].
  destruct (video_id v =? i) eqn:E; [discriminate|].
  intros Hf [H|H]; [|exact (IH Hf H)].
  apply String.eqb_neq in E. contradiction.
Qed.

Lemma find_some_in (vl : list Video) (i : string) v :
  find (fun video => video_id video =? i) vl = Some v ->
  In i (map video_id vl).
Proof.
  intros H. apply find_some in H. destruct H as (Hin & E).
  apply String.eqb_eq in E. subst i. now apply in_map.
Qed.

Lemma unique_ids_push (vl : list Video) (v : Video) :
  NoDup (map video_id vl) ->
  find (fun video => video_id video =? video_id v) vl = None ->
  NoDup (map video_id (vl ++ [v])).
Proof.
  intros Hnd Hf. rewrite map_app. simpl.
  apply find_none_not_in in Hf.
  induction (map video_id vl) as [|x l IH]; simpl.
  - constructor; [tauto | constructor].
  - inversion Hnd; subst. constructor.
    + rewrite in_app_iff. simpl. intros [H|[H|[]]]; [tauto|].
      apply Hf. now left.
    + apply IH; auto. intros H. apply Hf. now right.
Qed.

Ltac ok_step :=
  first
    [ progress intros
    | apply ok_bind
    | apply ok_try_catch
    | apply ok_forEach
    | exact Logic.I
    | reflexivity
    | assumption
    | match goal with
      | |- _ /\ _ => split
      | |- ok _ _ (match ?x with _ => _ end) => destruct x eqn:?
      | |- ok _ _ (if ?x then _ else _) => destruct x eqn:?
      end
    | progress cbn ].

Section Vocabulary.

Variable host : Host.
Variable props : Props.

Lemma ok_joinedRoom stream b : ok vocab unique_ids (joinedRoom host stream b).
Proof.
  unfold joinedRoom, nextTick.
  destruct (nextTick_in_scope host); repeat ok_step;
    unfold unique_ids in *; simpl;
    apply unique_ids_push; auto; simpl;
    destruct (find _ (videoList st)); (discriminate || reflexivity).
Qed.

Lemma ok_on_answer p pc m : ok vocab unique_ids (on_answer p pc m).
Proof. unfold on_answer. repeat ok_step. Qed.

Lemma ok_on_ice_candidate p pc m :
  ok vocab unique_ids (on_ice_candidate p pc m).
Proof. unfold on_ice_candidate. repeat ok_step. Qed.

Lemma ok_ontrack e : ok vocab unique_ids (ontrack host props e).
Proof.
  unfold ontrack. destruct e; try exact Logic.I.
  apply ok_bind; [unfold log; repeat ok_step | intros; apply ok_joinedRoom].
Qed.

Lemma ok_onicecandidate p e : ok vocab unique_ids (onicecandidate p e).
Proof. unfold onicecandidate. repeat ok_step. Qed.

Lemma ok_oniceconnectionstatechange e :
  ok vocab unique_ids (oniceconnectionstatechange e).
Proof. unfold oniceconnectionstatechange. repeat ok_step. Qed.

Lemma ok_onerror e : ok vocab unique_ids (onerror e).
Proof. unfold onerror. repeat ok_step. Qed.

Lemma ok_connectToPeer ls p : ok vocab unique_ids (connectToPeer host props ls p).
Proof.
  unfold connectToPeer, log.
  repeat first
    [ apply ok_on_answer | apply ok_on_ice_candidate | apply ok_ontrack
    | apply ok_onicecandidate | apply ok_oniceconnectionstatechange
    | apply ok_onerror | ok_step ].
Qed.

Lemma ok_on_discover ls m : ok vocab unique_ids (on_discover host props ls m).
Proof.
  unfold on_discover, log. destruct m; try exact Logic.I.
  repeat first [ apply ok_connectToPeer | ok_step ].
Qed.

Lemma ok_on_request ls m : ok vocab unique_ids (on_request host props ls m).
Proof.
  unfold on_request, log. destruct m; try exact Logic.I.
  repeat first
    [ apply ok_on_answer | apply ok_on_ice_candidate | apply ok_ontrack
    | apply ok_onicecandidate | apply ok_oniceconnectionstatechange
    | ok_step ].
Qed.

Lemma ok_on_connect_error m : ok vocab unique_ids (on_connect_error m).
Proof. unfold on_connect_error. repeat ok_step. Qed.

Lemma ok_joinRoom : ok vocab unique_ids (joinRoom host props).
Proof.
  unfold joinRoom, log, getUserMedia.
  repeat first
    [ apply ok_joinedRoom | apply ok_on_discover | apply ok_on_request
    | apply ok_on_connect_error | ok_step ].
Qed.

Lemma ok_leaveRoom : ok vocab unique_ids (leaveRoom props).
Proof.
  unfold leaveRoom, log. repeat ok_step; unfold unique_ids; simpl; constructor.
Qed.

Lemma ok_getCanvas : ok vocab unique_ids getCanvas.
Proof. unfold getCanvas. repeat ok_step. Qed.

Lemma ok_capture : ok vocab unique_ids (capture host props).
Proof. unfold capture. repeat first [apply ok_getCanvas | ok_step]. Qed.

Lemma ok_shareScreen : ok vocab unique_ids (shareScreen host props).
Proof.
  unfold shareScreen, log.
  repeat first [ apply ok_joinedRoom | ok_step ].
Qed.

End Vocabulary.

(** ** Every state of every run is [good] *)

Lemma take_task_Forall (Q : Task -> Prop) id l t rest :
  Forall Q l -> take_task id l = Some (t, rest) -> Q t /\ Forall Q rest.
Proof.
  intros Hl. revert t rest. induction Hl as [|x l Hx Hl IH]; simpl; intros t rest.
  - discriminate.
  - destruct (Nat.eqb (task_id x) id).
    + intros E; inversion E; subst; auto.
    + destruct (take_task id l) as [[t' r]|]; [|discriminate].
      intros E; inversion E; subst.
      destruct (IH _ _ eq_refl); auto.
Qed.

Lemma assoc_Forall {X} (Q : X -> Prop) key (l : list (string * X)) x :
  Forall (fun e => Q (snd e)) l -> assoc key l = Some x -> Q x.
Proof.
  induction 1 as [|[k y] l Hy Hl IH]; simpl; [discriminate|].
  destruct (k =? key); [intros E; inversion E; subst; auto | auto].
Qed.

Section Reachable.

Variable host : Host.
Variable props : Props.

Lemma vocab_uncaught e : vocab (Uncaught e).
Proof. reflexivity. Qed.

Lemma good_init : good init.
Proof.
  unfold good, Inv, init; simpl. repeat apply conj; constructor.
Qed.

Lemma good_step s e : good s -> good (step host props s e).
Proof.
  intros Hs. unfold good in *.
  destruct e as [| | | | |els| |sk m|id o|pc e]; simpl.
  - apply run_Inv; auto using vocab_uncaught, ok_joinRoom.
  - apply run_Inv; auto using vocab_uncaught, ok_leaveRoom.
  - apply run_Inv; auto using vocab_uncaught, ok_shareScreen.
  - apply run_Inv; auto using vocab_uncaught, ok_capture.
  - apply run_Inv; auto using vocab_uncaught, ok_getCanvas.
  - destruct Hs as (H1 & H2). split; auto.
  - destruct Hs as (H1 & H2 & H3 & H4 & H5 & H6).
    apply (fold_run_Inv vocab unique_ids vocab_uncaught (ticks s)
             (fun cb => cb)); auto.
    unfold Inv; simpl; repeat apply conj; auto.
  - destruct (nth_error (sockets s) sk) as [so|] eqn:E; auto.
    destruct (sk_open so); auto.
    apply (fold_run_Inv vocab unique_ids vocab_uncaught
             (listeners_for (msg_name m) so) (fun h => h m)); auto.
    destruct Hs as (H1 & H2 & H3 & H4).
    rewrite Forall_forall in H3. specialize (H3 so (nth_error_In _ _ E)).
    unfold listeners_for. rewrite Forall_forall in *.
    intros h Hh. apply in_map_iff in Hh. destruct Hh as (l & <- & Hl).
    apply filter_In in Hl. apply H3, Hl.
  - destruct (take_task id (pending s)) as [[t rest]|] eqn:E; auto.
    destruct (settles (task_call t) o); auto.
    destruct Hs as (H1 & H2 & H3 & H4 & H5 & H6).
    destruct (take_task_Forall _ _ _ _ _ H5 E) as (Ht & Hrest).
    apply run_Inv; auto using vocab_uncaught.
    unfold Inv; simpl; repeat apply conj; auto.
  - destruct (nth_error (pcs s) pc) as [po|] eqn:E; auto.
    destruct (assoc (pc_slot e) (pc_handlers po)) as [h|] eqn:Eh; auto.
    apply run_Inv; auto using vocab_uncaught.
    destruct Hs as (H1 & H2 & H3 & H4 & H5).
    rewrite Forall_forall in H4. specialize (H4 po (nth_error_In _ _ E)).
    exact (assoc_Forall (fun h => forall e, ok vocab unique_ids (h e))
             _ _ _ H4 Eh e).
Qed.

Lemma good_steps es s : good s -> good (steps host props s es).
Proof.
  revert s. induction es as [|e es IH]; intros s Hs; simpl; auto.
  apply IH, good_step, Hs.
Qed.

(** Whatever the environment does, the trace stays within the vocabulary
    and the registry ids stay unique. *)
Lemma reachable_good es : good (steps host props init es).
Proof. apply good_steps, good_init. Qed.

Lemma reachable_vocabulary es :
  forallb in_vocabulary (trace (steps host props init es)) = true.
Proof.
  destruct (reachable_good es) as (_ & H & _).
  apply forallb_forall. rewrite Forall_forall in H. exact H.
Qed.

Lemma reachable_unique_ids es :
  NoDup (registry_ids (steps host props init es)).
Proof. destruct (reachable_good es) as (H & _). exact H. Qed.

End Reachable.

(** ** Joining ([joinRoom], lines 97-309) *)

Section Join.

Variable host : Host.
Variable props : Props.

(** C3, as the code has it: with no token configured (null or the empty
    string) [joinRoom] opens no socket and acquires no media; it only
    writes "JWT Token is Required" to [console.error] and returns normally:
    no event is emitted and nothing is thrown. *)
Theorem joinRoom_without_token s :
  truthy (jwtToken props) = None ->
  exec (joinRoom host props) s =
    (Returned tt,
     records (logged props "Joining room..." ++
              [ConsoleError "JWT Token is Required"]) s).
Proof.
  intros H. unfold joinRoom.
  rewrite straight_log, exec_prepend, H. simpl.
  now rewrite records_app.
Qed.

(** With a token, media granted and [nextTick] bound, the join registers
    the local stream, the three listeners, and sends [discover]. *)
Lemma join_succeeds token ls :
  global_nextTick host = true ->
  mediaDevices host = true ->
  truthy (jwtToken props) = Some token ->
  let s :=
    steps host props init [CallJoinRoom; Settle 0 (Resolved (VStream ls))] in
  socket (store s) = Some 0 /\
  videoList (store s) = [entry ls true] /\
  sockets s =
    [mkSocketObj true
       [("connect_error", on_connect_error);
        ("discover", on_discover host props ls);
        ("request", on_request host props ls)]] /\
  pcs s = [] /\
  pending s = [] /\
  trace s =
    (logged props "Joining room..." ++
     [Io 0 (socketURL props) token; SocketOn 0 "connect_error";
      Invoke (GetUserMedia (constraints props))] ++
     logged props "getUserMedia success" ++
     [Emit "joined-room" (AStr (stream_id ls)); SocketOn 0 "discover";
      SocketOn 0 "request"; SocketEmit 0 "discover" (ORoom (roomId props))])%list.
Proof.
  intros Hn Hm Ht.
  unfold steps, step, fold_left, run, joinRoom, getUserMedia, joinedRoom,
    nextTick, nextTick_in_scope, log, logged.
  rewrite Ht, Hm, Hn.
  destruct (enableLogs props); cbn; repeat apply conj; reflexivity.
Qed.

(** With a token and media granted but [nextTick] unbound, the join stops
    at its [joinedRoom] call (line 146): the stream is registered, but no
    ["discover"] or ["request"] listener is registered and no [discover] is
    sent. *)
Lemma join_stops_without_nextTick token ls :
  global_nextTick host = false ->
  mediaDevices host = true ->
  truthy (jwtToken props) = Some token ->
  let s :=
    steps host props init [CallJoinRoom; Settle 0 (Resolved (VStream ls))] in
  videoList (store s) = [entry ls true] /\
  sockets s = [mkSocketObj true [("connect_error", on_connect_error)]] /\
  trace s =
    (logged props "Joining room..." ++
     [Io 0 (socketURL props) token; SocketOn 0 "connect_error";
      Invoke (GetUserMedia (constraints props))] ++
     logged props "getUserMedia success" ++
     [Uncaught (ReferenceError "nextTick")])%list.
Proof.
  intros Hn Hm Ht.
  unfold steps, step, fold_left, run, joinRoom, getUserMedia, joinedRoom,
    nextTick, nextTick_in_scope, log, logged.
  rewrite Ht, Hm, Hn.
  destruct (enableLogs props); cbn; repeat apply conj; reflexivity.
Qed.


End Join.

(** C3 as stated fails: the join returns normally and emits no event, so no
    AuthenticationRequired error reaches the caller. *)
Lemma joinRoom_without_token_surfaces_nothing :
  let r := exec (joinRoom browser props_without_token) init in
  fst r = Returned tt /\
  existsb is_any_emit (trace (snd r)) = false /\
  trace (snd r) = [ConsoleError "JWT Token is Required"].
Proof. vm_compute. auto. Qed.

Lemma joinRoom_without_token_witness :
  truthy (jwtToken props_without_token) = None /\
  exec (joinRoom browser props_without_token) init =
    (Returned tt,
     records (logged props_without_token "Joining room..." ++
              [ConsoleError "JWT Token is Required"]) init).
Proof.
  split; [reflexivity|].
  apply (joinRoom_without_token browser props_without_token init).
  reflexivity.
Defined.

(** ** Leaving the room (lines 356-374) *)

Lemma count_app f t1 t2 : count f (t1 ++ t2) = count f t1 + count f t2.
Proof. unfold count. now rewrite filter_app, length_app. Qed.

Lemma count_none f t : forallb (fun a => negb (f a)) t = true -> count f t = 0.
Proof.
  unfold count. induction t as [|a t IH]; simpl; [reflexivity|].
  destruct (f a); simpl; [discriminate | exact IH].
Qed.

Lemma since_app (t acts : list Action) : since (length t) (t ++ acts) = acts.
Proof.
  unfold since. rewrite skipn_app, skipn_all, Nat.sub_diag. reflexivity.
Qed.

Lemma straight_stops vl :
  straight
    (forEach vl (fun v =>
       forEach (getTracks (stream v)) (fun t => invoke (TrackStop t))))
    (stops vl).
Proof.
  unfold stops. apply straight_forEach. intros v.
  replace (map (fun t => Invoke (TrackStop t)) (getTracks (stream v)))
    with (flat_map (fun t => [Invoke (TrackStop t)]) (getTracks (stream v))).
  - apply straight_forEach. intros t. apply straight_act.
  - induction (getTracks (stream v)); simpl; congruence.
Qed.

Lemma count_close_stops vl : count (is_pc_call "close") (stops vl) = 0.
Proof.
  apply count_none. unfold stops. apply forallb_forall. intros a Ha.
  apply in_flat_map in Ha. destruct Ha as (v & _ & Ha).
  apply in_map_iff in Ha. destruct Ha as (t & <- & _). reflexivity.
Qed.

Section Leave.

Variable host : Host.
Variable props : Props.

(** C5, as the code has it: [leaveRoom] stops every track of every stream
    in the registry (local and remote alike), empties the registry,
    disconnects the socket when there is one and clears the ref, and emits
    [left-room] with the room id.  It calls nothing on any peer connection:
    the connections and the parked negotiations stay as they were, and the
    number of [close] calls is 0 whatever the number of connections. *)
Theorem leaveRoom_effects s :
  let r := exec (leaveRoom props) s in
  fst r = Returned tt /\
  videoList (store (snd r)) = [] /\
  socket (store (snd r)) = None /\
  pcs (snd r) = pcs s /\
  pending (snd r) = pending s /\
  trace (snd r) =
    (trace s ++ logged props "Leaving room" ++ stops (videoList (store s)) ++
     disconnects (socket (store s)) ++
     [Emit "left-room" (AStr (roomId props))])%list /\
  count (is_pc_call "close") (since (length (trace s)) (trace (snd r))) = 0.
Proof.
  assert (E : exec (leaveRoom props) s =
    (Returned tt,
     mkState (mkStore None [] (videos (store s)))
       (match socket (store s) with
        | Some sk =>
            update_nth sk (fun so => mkSocketObj false (sk_listeners so))
              (sockets s)
        | None => sockets s
        end)
       (pcs s) (pending s) (next_task s) (ticks s)
       (trace s ++ logged props "Leaving room" ++ stops (videoList (store s)) ++
        disconnects (socket (store s)) ++
        [Emit "left-room" (AStr (roomId props))]))).
  { unfold leaveRoom.
    rewrite straight_log, exec_prepend. cbn [exec].
    rewrite straight_stops, exec_prepend.
    destruct s as [[sk vl els] sks ps pend nt tk tr]; simpl.
    destruct sk as [n|]; simpl; unfold record, set_store, set_sockets; simpl;
      repeat rewrite <- app_assoc; reflexivity. }
  cbv zeta. rewrite E. simpl. repeat apply conj; auto.
  rewrite since_app. repeat rewrite count_app.
  rewrite count_close_stops. unfold logged, disconnects.
  destruct (enableLogs props), (socket (store s)); reflexivity.
Qed.

End Leave.

(** C5 as stated fails: with one live peer connection the leave performs no
    close operation at all. *)
Lemma leaveRoom_closes_nothing :
  let s := joined_with_peer in
  let s' := step browser_with_nextTick demo_props s CallLeaveRoom in
  length (pcs s) = 1 /\
  count (is_pc_call "close") (since (length (trace s)) (trace s')) = 0 /\
  since (length (trace s)) (trace s') =
    [Invoke (TrackStop "a0"); Invoke (TrackStop "v0"); SocketDisconnect 0;
     Emit "left-room" (AStr "abc123")].
Proof. vm_compute. auto. Qed.

(** ** The stream registry ([joinedRoom], lines 330-354) *)

Lemma entries_unique (vl : list Video) (i : string) :
  NoDup (map video_id vl) -> In i (map video_id vl) ->
  length (filter (fun v => video_id v =? i) vl) = 1.
Proof.
  induction vl as [|v vl IH]; simpl; [tauto|].
  intros Hnd Hin. inversion Hnd as [|x l Hx Hl]; subst.
  destruct (video_id v =? i) eqn:E; simpl.
  - apply String.eqb_eq in E. subst i. f_equal.
    apply length_zero_iff_nil.
    destruct (filter _ vl) as [|w ws] eqn:F; [reflexivity|].
    exfalso. apply Hx.
    assert (Hw : In w (filter (fun v0 => video_id v0 =? video_id v) vl))
      by (rewrite F; now left).
    apply filter_In in Hw. destruct Hw as (Hw & Ew).
    apply String.eqb_eq in Ew. rewrite <- Ew. now apply in_map.
  - apply IH; auto. destruct Hin as [H|H]; auto.
    apply String.eqb_neq in E. contradiction.
Qed.

Section Registry.

Variable host : Host.
Variable props : Props.

(** What a call of [joinedRoom] does to the refs, whether or not it gets
    past [nextTick]: the entry is pushed when its id is new. *)
Lemma joinedRoom_store stream b s :
  store (run (joinedRoom host stream b) s) =
    match find (fun video => video_id video =? stream_id stream)
            (videoList (store s)) with
    | Some _ => store s
    | None =>
        mkStore (socket (store s)) (videoList (store s) ++ [entry stream b])
          (videos (store s))
    end.
Proof.
  unfold run, joinedRoom, nextTick, nextTick_in_scope. cbn [exec].
  destruct (find _ (videoList (store s))); cbn;
    destruct (global_nextTick host); reflexivity.
Qed.

Lemma joinedRoom_present stream b s :
  In (stream_id stream) (registry_ids s) ->
  store (run (joinedRoom host stream b) s) = store s.
Proof.
  intros Hin. rewrite joinedRoom_store.
  destruct (find _ (videoList (store s))) eqn:F; [reflexivity|].
  apply find_none_not_in in F. contradiction.
Qed.

Lemma joinedRoom_registers stream b s :
  In (stream_id stream) (registry_ids (run (joinedRoom host stream b) s)).
Proof.
  unfold registry_ids. rewrite joinedRoom_store.
  destruct (find _ (videoList (store s))) eqn:F.
  - eapply find_some_in; eauto.
  - simpl. rewrite map_app, in_app_iff. right. now left.
Qed.

Lemma joinedRoom_unique stream b s :
  NoDup (registry_ids s) ->
  NoDup (registry_ids (run (joinedRoom host stream b) s)).
Proof.
  intros Hnd. unfold registry_ids. rewrite joinedRoom_store.
  destruct (find _ (videoList (store s))) eqn:F; [exact Hnd|].
  simpl. apply unique_ids_push; auto.
Qed.

(** C8: adding to the registry is idempotent.  A call of [joinedRoom] for a
    stream whose id is already in [videoList] leaves the refs as they were;
    and from any state the component can reach, two calls for the same
    stream leave exactly one entry with its id. *)
Theorem registry_add_idempotent stream isLocal isLocal' :
  (forall s,
     In (stream_id stream) (registry_ids s) ->
     store (run (joinedRoom host stream isLocal) s) = store s) /\
  (forall es,
     let s := steps host props init es in
     let s1 := run (joinedRoom host stream isLocal) s in
     let s2 := run (joinedRoom host stream isLocal') s1 in
     store s2 = store s1 /\ entries_for (stream_id stream) s2 = 1).
Proof.
  split; [intros s; apply joinedRoom_present|].
  intros es s s1 s2.
  assert (H1 : In (stream_id stream) (registry_ids s1))
    by apply joinedRoom_registers.
  assert (E : store s2 = store s1) by (apply joinedRoom_present; exact H1).
  split; [exact E|].
  unfold entries_for. rewrite E. apply entries_unique; [|exact H1].
  apply joinedRoom_unique, reachable_unique_ids.
Qed.

(** When the host binds [nextTick], a call of [joinedRoom] emits
    [joined-room] with the stream's id exactly once, also when the id was
    already registered. *)
Lemma joinedRoom_emits_once stream b s :
  global_nextTick host = true ->
  fst (exec (joinedRoom host stream b) s) = Returned tt /\
  trace (run (joinedRoom host stream b) s) =
    (trace s ++ [Emit "joined-room" (AStr (stream_id stream))])%list.
Proof.
  intros H. unfold run, joinedRoom, nextTick, nextTick_in_scope. cbn [exec].
  destruct (find _ (videoList (store s))); cbn; rewrite H; cbn; auto.
Qed.

(** C9 on the code: the module never imports [nextTick] (line 12 imports
    [defineComponent], [ref], [onMounted], [onBeforeUnmount]), so where the
    global scope has none either, the call at line 345 throws a
    ReferenceError after the push and before line 353: no [joined-room]
    event is emitted. *)
Theorem joinedRoom_throws_before_emit stream b s :
  global_nextTick host = false ->
  fst (exec (joinedRoom host stream b) s) = Thrown (ReferenceError "nextTick") /\
  trace (snd (exec (joinedRoom host stream b) s)) = trace s /\
  count (is_emit "joined-room")
    (since (length (trace s)) (trace (run (joinedRoom host stream b) s))) = 0.
Proof.
  intros H. unfold run, joinedRoom, nextTick, nextTick_in_scope. cbn [exec].
  destruct (find _ (videoList (store s))); cbn; rewrite H; cbn;
    repeat split; rewrite since_app; reflexivity.
Qed.

End Registry.

Lemma registry_add_idempotent_witness :
  In (stream_id cam) (registry_ids joined) /\
  store (run (joinedRoom browser cam false) joined) = store joined.
Proof.
  split; [vm_compute; auto|].
  apply (proj1 (registry_add_idempotent browser demo_props cam false false)).
  vm_compute; auto.
Defined.

Lemma joinedRoom_throws_before_emit_witness :
  global_nextTick browser = false /\
  fst (exec (joinedRoom browser cam true) init) =
    Thrown (ReferenceError "nextTick").
Proof.
  split; [reflexivity|].
  apply (joinedRoom_throws_before_emit browser cam true init).
  reflexivity.
Defined.

(** ** Screenshots ([capture] and [getCanvas], lines 376-394) *)

Section Capture.

Variable host : Host.
Variable props : Props.

(** C10: with no rendered video element ([videos] empty) [getCanvas] warns
    and returns null, and [capture], which calls [toDataURL] on that
    result, throws a TypeError; with at least one element [capture] returns
    what [toDataURL] gives for the configured screenshot format on a canvas
    of the first element's size. *)
Theorem capture_result s :
  (videos (store s) = [] ->
   exec getCanvas s =
     (Returned None,
      record (ConsoleWarn "No video element found for capturing.") s) /\
   exec (capture host props) s =
     (Thrown (TypeError "Cannot read properties of null"),
      record (ConsoleWarn "No video element found for capturing.") s)) /\
  (forall video rest,
     videos (store s) = video :: rest ->
     exec (capture host props) s =
       (Returned
          (toDataURL host
             (mkCanvas (clientHeight video) (clientWidth video) (el_id video))
             (screenshotFormat props)), s)).
Proof.
  split.
  - intros E. unfold capture, getCanvas. cbn. rewrite E. cbn. auto.
  - intros video rest E. unfold capture, getCanvas. cbn. rewrite E. reflexivity.
Qed.

End Capture.

Lemma capture_result_witness :
  (videos (store init) = [] /\
   exec (capture browser demo_props) init =
     (Thrown (TypeError "Cannot read properties of null"),
      record (ConsoleWarn "No video element found for capturing.") init)) /\
  (videos (store rendered) = [mkVideoElement "cam" 160 213 None] /\
   exec (capture browser demo_props) rendered =
     (Returned "data:image/jpeg", rendered)).
Proof.
  split; (split; [reflexivity|]).
  - apply (proj1 (capture_result browser demo_props init)). reflexivity.
  - apply (proj2 (capture_result browser demo_props rendered)
             (mkVideoElement "cam" 160 213 None) []).
    reflexivity.
Defined.

(** ** Negotiation: the listeners and [connectToPeer] (lines 149-305) *)

Lemma straight_attach pc ls :
  straight
    (forEach (getTracks ls) (fun track =>
       invoke (PcMethod pc "addTrack" (PTrack track (stream_id ls)))))
    (attach pc ls).
Proof.
  unfold attach.
  replace (map _ (getTracks ls))
    with (flat_map
            (fun track =>
               [Invoke (PcMethod pc "addTrack" (PTrack track (stream_id ls)))])
            (getTracks ls)).
  - apply straight_forEach. intros t. apply straight_act.
  - induction (getTracks ls); simpl; congruence.
Qed.

Lemma update_nth_last {X} (l : list X) x f :
  update_nth (length l) f (l ++ [x]) = (l ++ [f x])%list.
Proof. induction l; simpl; congruence. Qed.



(** An action outside the vocabulary never occurs in a run. *)
Lemma count_outside f t :
  (forall a, in_vocabulary a = true -> f a = false) ->
  forallb in_vocabulary t = true -> count f t = 0.
Proof.
  intros Hf Ht. apply count_none, forallb_forall. intros a Ha.
  rewrite forallb_forall in Ht. now rewrite (Hf a (Ht a Ha)).
Qed.


Lemma peer_error_outside a :
  in_vocabulary a = true -> is_emit "peer-error" a = false.
Proof.
  destruct a; simpl; try reflexivity. intros H.
  destruct (ev =? "peer-error") eqn:E; [|reflexivity].
  apply String.eqb_eq in E. subst. discriminate H.
Qed.

Local Arguments String.append : simpl never.

Section Negotiation.

Variable host : Host.
Variable props : Props.

(** [connectToPeer] up to its first [await]. *)
Lemma connectToPeer_starts ls peerID s sk :
  socket (store s) = Some sk ->
  (peerID =? socket_id host sk) = false ->
  exists k s1,
    exec (connectToPeer host props ls peerID) s = (Suspended, s1) /\
    store s1 = store s /\
    pcs s1 =
      (pcs s ++
       [mkPcObj peerID
          [("onicecandidate", onicecandidate peerID);
           ("ontrack", ontrack host props)]])%list /\
    pending s1 =
      mkTask (next_task s) (PcMethod (length (pcs s)) "createOffer" PNone) k
        :: pending s /\
    next_task s1 = S (next_task s) /\
    trace s1 =
      (trace s ++ logged props ("Connecting to peer: " ++ peerID) ++
       [NewRTCPeerConnection (length (pcs s)) peerID] ++
       attach (length (pcs s)) ls ++
       [SocketOn sk "ice-candidate";
        Invoke (PcMethod (length (pcs s)) "createOffer" PNone)])%list /\
    negotiates "Error connecting to peer:" peerID (length (pcs s)) k.
Proof.
  intros Hs Hp. unfold connectToPeer.
  cbn [bind socket_value exec]. rewrite Hs. cbn [bind exec]. rewrite Hp.
  rewrite straight_log, exec_prepend.
  cbn [try_catch bind new_RTCPeerConnection exec].
  rewrite straight_attach, try_catch_prepend, exec_prepend.
  cbn. rewrite Hs. cbn.
  eexists. eexists. split; [reflexivity|].
  repeat apply conj; try reflexivity.
  - cbn. now rewrite !update_nth_last.
  - cbn. repeat rewrite <- app_assoc. reflexivity.
  - intros s0 e. reflexivity.
  - intros s0 offer. eexists. split; [reflexivity|]. split.
    + intros s' sk' H. cbn. rewrite H. cbn. rewrite H. cbn. rewrite H. cbn.
      repeat apply conj; try reflexivity.
      repeat rewrite <- app_assoc. reflexivity.
    + intros s' e. reflexivity.
Qed.

(** The ["request"] listener up to its first [await]. *)
Lemma on_request_starts ls from s :
  exists k s1,
    exec (on_request host props ls (InRequest from)) s = (Suspended, s1) /\
    store s1 = store s /\
    pcs s1 =
      (pcs s ++
       [mkPcObj from
          [("oniceconnectionstatechange", oniceconnectionstatechange);
           ("onicecandidate", onicecandidate from);
           ("ontrack", ontrack host props)]])%list /\
    pending s1 =
      mkTask (next_task s) (PcMethod (length (pcs s)) "createOffer" PNone) k
        :: pending s /\
    next_task s1 = S (next_task s) /\
    trace s1 =
      (trace s ++ logged props "request" ++
       [NewRTCPeerConnection (length (pcs s)) from] ++
       attach (length (pcs s)) ls ++
       [Invoke (PcMethod (length (pcs s)) "createOffer" PNone)])%list /\
    negotiates "Error accepting peer request:" from (length (pcs s)) k.
Proof.
  unfold on_request.
  rewrite straight_log, exec_prepend.
  cbn [try_catch bind new_RTCPeerConnection exec].
  rewrite straight_attach, try_catch_prepend, exec_prepend.
  cbn.
  eexists. eexists. split; [reflexivity|].
  repeat apply conj; try reflexivity.
  - cbn. now rewrite !update_nth_last.
  - cbn. repeat rewrite <- app_assoc. reflexivity.
  - intros s0 e. reflexivity.
  - intros s0 offer. eexists. split; [reflexivity|]. split.
    + intros s' sk' H. cbn. rewrite H. cbn. rewrite H. cbn. rewrite H. cbn.
      repeat apply conj; try reflexivity.
      repeat rewrite <- app_assoc. reflexivity.
    + intros s' e. reflexivity.
Qed.




(** The ["answer"] listener: for its own peer it calls
    [setRemoteDescription(answer)] at once; a rejection is only logged. *)
Lemma on_answer_applies peerID pc answer s :
  exists k,
    exec (on_answer peerID pc (InAnswer peerID answer)) s =
      (Suspended,
       mkState (store s) (sockets s) (pcs s)
         (mkTask (next_task s)
            (PcMethod pc "setRemoteDescription" (PDesc answer)) k :: pending s)
         (S (next_task s)) (ticks s)
         (trace s ++ [Invoke (PcMethod pc "setRemoteDescription" (PDesc answer))]))
    /\ settles_quietly k
    /\ only_logs "Error setting remote description: " k.
Proof.
  unfold on_answer. rewrite String.eqb_refl. cbn.
  eexists. split; [reflexivity|]. split.
  - intros s0 v. reflexivity.
  - intros s0 e. reflexivity.
Qed.

(** The ["ice-candidate"] listener: for a candidate of its own peer it
    calls [addIceCandidate(candidate)] at once, in whatever state the
    component is; a rejection is only logged. *)
Lemma on_ice_candidate_applies peerID pc candidate s :
  exists k,
    exec
      (on_ice_candidate peerID pc (InIceCandidate peerID (Some candidate))) s =
      (Suspended,
       mkState (store s) (sockets s) (pcs s)
         (mkTask (next_task s)
            (PcMethod pc "addIceCandidate" (PCand candidate)) k :: pending s)
         (S (next_task s)) (ticks s)
         (trace s ++ [Invoke (PcMethod pc "addIceCandidate" (PCand candidate))]))
    /\ settles_quietly k
    /\ only_logs "Error adding ICE candidate: " k.
Proof.
  unfold on_ice_candidate. rewrite String.eqb_refl. cbn.
  eexists. split; [reflexivity|]. split.
  - intros s0 v. reflexivity.
  - intros s0 e. reflexivity.
Qed.


(** C7, as the code has it: a failed negotiation call of a peer is caught
    and written to [console.error], and nothing else happens: the four
    per-peer paths (["answer"] listener, ["ice-candidate"] listener,
    [connectToPeer], ["request"] listener) emit no event for it, and no run
    of the component ever emits [peer-error]. *)
Theorem negotiation_failures_only_logged :
  (forall peerID pc answer s, exists k,
     pending (snd (exec (on_answer peerID pc (InAnswer peerID answer)) s))
       = mkTask (next_task s)
           (PcMethod pc "setRemoteDescription" (PDesc answer)) k :: pending s
     /\ only_logs "Error setting remote description: " k) /\
  (forall peerID pc candidate s, exists k,
     pending
       (snd (exec
               (on_ice_candidate peerID pc
                  (InIceCandidate peerID (Some candidate))) s))
       = mkTask (next_task s)
           (PcMethod pc "addIceCandidate" (PCand candidate)) k :: pending s
     /\ only_logs "Error adding ICE candidate: " k) /\
  (forall ls peerID s sk,
     socket (store s) = Some sk ->
     (peerID =? socket_id host sk) = false ->
     exists k,
       pending (snd (exec (connectToPeer host props ls peerID) s))
         = mkTask (next_task s)
             (PcMethod (length (pcs s)) "createOffer" PNone) k :: pending s
       /\ negotiates "Error connecting to peer:" peerID (length (pcs s)) k) /\
  (forall ls from s, exists k,
     pending (snd (exec (on_request host props ls (InRequest from)) s))
       = mkTask (next_task s)
           (PcMethod (length (pcs s)) "createOffer" PNone) k :: pending s
     /\ negotiates "Error accepting peer request:" from (length (pcs s)) k) /\
  (forall es,
     count (is_emit "peer-error") (trace (steps host props init es)) = 0).
Proof.
  split; [|split; [|split; [|split]]].
  - intros peerID pc answer s.
    destruct (on_answer_applies peerID pc answer s) as (k & E & _ & Hk).
    exists k. rewrite E. split; [reflexivity | exact Hk].
  - intros peerID pc candidate s.
    destruct (on_ice_candidate_applies peerID pc candidate s) as (k & E & _ & Hk).
    exists k. rewrite E. split; [reflexivity | exact Hk].
  - intros ls peerID s sk Hs Hp.
    destruct (connectToPeer_starts ls peerID s sk Hs Hp)
      as (k & s1 & E1 & _ & _ & Hpend & _ & _ & Hk).
    exists k. rewrite E1. split; [exact Hpend | exact Hk].
  - intros ls from s.
    destruct (on_request_starts ls from s)
      as (k & s1 & E1 & _ & _ & Hpend & _ & _ & Hk).
    exists k. rewrite E1. split; [exact Hpend | exact Hk].
  - intros es. apply count_outside; [exact peer_error_outside|].
    apply reachable_vocabulary.
Qed.

End Negotiation.

(** ** The claims that fail as stated, on concrete runs *)




(** C7 as stated fails: [setRemoteDescription] rejects the answer of "p2";
    the failure is written to [console.error] and no event is emitted. *)
Lemma failed_answer_emits_nothing :
  let t := since (length (trace joined)) (trace answer_rejected) in
  t = [NewRTCPeerConnection 0 "p2";
       Invoke (PcMethod 0 "addTrack" (PTrack "a0" "cam"));
       Invoke (PcMethod 0 "addTrack" (PTrack "v0" "cam"));
       SocketOn 0 "ice-candidate";
       Invoke (PcMethod 0 "createOffer" PNone);
       Emit "opened-room" (AStr "abc123");
       Invoke (PcMethod 0 "setLocalDescription" (PDesc "sdp-1"));
       SocketEmit 0 "offer" (OOffer "p2" "sdp-1");
       SocketOn 0 "answer"; SocketOn 0 "ice-candidate";
       Invoke (PcMethod 0 "setRemoteDescription" (PDesc "sdp-answer"));
       ConsoleError "Error setting remote description: "] /\
  count (is_emit "peer-error") (trace answer_rejected) = 0.
Proof. vm_compute. auto. Qed.

(** ** The theorems at concrete inputs *)




Lemma negotiation_failures_only_logged_witness :
  socket (store joined) = Some 0 /\
  ("p2" =? socket_id browser_with_nextTick 0) = false /\
  exists k,
    pending
      (snd (exec
              (connectToPeer browser_with_nextTick demo_props cam "p2") joined))
      = mkTask (next_task joined) (PcMethod (length (pcs joined)) "createOffer" PNone) k
          :: pending joined /\
    negotiates "Error connecting to peer:" "p2"
      (length (pcs joined)) k.
Proof.
  split; [reflexivity|]. split; [reflexivity|].
  apply (proj1 (proj2 (proj2 (negotiation_failures_only_logged
                                browser_with_nextTick demo_props)))
           cam "p2" joined 0); reflexivity.
Defined.

(** * Further properties of the code *)

(** ** Room ids and the URL validator *)

Local Arguments String.append : simpl nomatch.

Lemma concat_empty_cons (x : string) (l : list string) :
  String.concat "" (x :: l) = x ++ String.concat "" l.
Proof.
  destruct l as [|y l]; simpl; [|reflexivity].
  induction x as [|c x IH]; simpl; congruence.
Qed.

Lemma length_append (s1 s2 : string) :
  String.length (s1 ++ s2) = String.length s1 + String.length s2.
Proof. induction s1 as [|c s1 IH]; simpl; congruence. Qed.

Lemma list_ascii_of_string_append (s1 s2 : string) :
  list_ascii_of_string (s1 ++ s2)
    = (list_ascii_of_string s1 ++ list_ascii_of_string s2)%list.
Proof. induction s1 as [|c s1 IH]; simpl; congruence. Qed.

(** A byte is written as exactly two lowercase hex digits, which read back
    as that byte. *)
Lemma byte_as_two_digits b :
  exists c1 c2,
    padStart 2 "0"%char (toString16 b) = String c1 (String c2 "") /\
    is_hex c1 = true /\ is_hex c2 = true /\
    Byte.of_nat (16 * hex_value c1 + hex_value c2) = Some b.
Proof. destruct b; do 2 eexists; repeat split. Qed.

Lemma read_hex_generateRoomId buffer :
  read_hex (generateRoomId buffer) = Some buffer.
Proof.
  unfold generateRoomId. induction buffer as [|b l IH]; [reflexivity|].
  cbn [map]. rewrite concat_empty_cons.
  destruct (byte_as_two_digits b) as (c1 & c2 & E & _ & _ & Hb).
  rewrite E. cbn [append read_hex]. rewrite Hb, IH. reflexivity.
Qed.

(** X1: a room id generated from a buffer of 20 bytes has 40 characters,
    all of them lowercase hexadecimal digits. *)
Theorem generateRoomId_forty_hex_digits buffer :
  length buffer = 20 ->
  String.length (generateRoomId buffer) = 40 /\
  forallb is_hex (list_ascii_of_string (generateRoomId buffer)) = true.
Proof.
  intros Hlen.
  assert (H : String.length (generateRoomId buffer) = 2 * length buffer /\
              forallb is_hex (list_ascii_of_string (generateRoomId buffer))
                = true).
  { clear Hlen. unfold generateRoomId.
    induction buffer as [|b l [IH1 IH2]]; [split; reflexivity|].
    cbn [map]. rewrite concat_empty_cons.
    destruct (byte_as_two_digits b) as (c1 & c2 & E & H1 & H2 & _).
    rewrite E. split.
    - rewrite length_append, IH1. simpl. lia.
    - rewrite list_ascii_of_string_append, forallb_app, IH2.
      simpl. now rewrite H1, H2. }
  destruct H as (H1 & H2). rewrite H1, Hlen. split; [reflexivity | exact H2].
Qed.

(** X2: different buffers give different room ids. *)
Theorem generateRoomId_injective buffer1 buffer2 :
  buffer1 <> buffer2 -> generateRoomId buffer1 <> generateRoomId buffer2.
Proof.
  intros Hne E. apply Hne.
  pose proof (read_hex_generateRoomId buffer1) as H1.
  pose proof (read_hex_generateRoomId buffer2) as H2.
  rewrite E, H2 in H1. now inversion H1.
Qed.

Lemma prefix_append (p rest : string) : String.prefix p (p ++ rest) = true.
Proof.
  induction p as [|c p IH]; simpl; [now destruct rest|].
  destruct (ascii_dec c c); [exact IH | contradiction].
Qed.

Lemma prefix_split (p s : string) :
  String.prefix p s = true -> exists rest, s = p ++ rest.
Proof.
  revert s. induction p as [|c p IH]; intros s H.
  - exists s. reflexivity.
  - destruct s as [|d s]; simpl in H; [discriminate|].
    destruct (ascii_dec c d) as [->|]; [|discriminate].
    destruct (IH s H) as (rest & ->). exists rest. reflexivity.
Qed.

(** X3: the [socketURL] validator accepts exactly the URLs that start with
    "https://". *)
Theorem socketURL_validator_https url :
  socketURL_validator url = true <-> exists rest, url = "https://" ++ rest.
Proof.
  unfold socketURL_validator. split.
  - apply prefix_split.
  - intros (rest & ->). apply prefix_append.
Qed.

Lemma generateRoomId_forty_hex_digits_witness :
  length (repeat Byte.xa7 20) = 20 /\
  String.length (generateRoomId (repeat Byte.xa7 20)) = 40.
Proof.
  split; [reflexivity|].
  apply (generateRoomId_forty_hex_digits (repeat Byte.xa7 20)). reflexivity.
Defined.

Lemma generateRoomId_injective_witness :
  [Byte.x0a; Byte.x10] <> [Byte.x10; Byte.x0a] /\
  generateRoomId [Byte.x0a; Byte.x10] <> generateRoomId [Byte.x10; Byte.x0a].
Proof.
  split; [discriminate|].
  apply (generateRoomId_injective [Byte.x0a; Byte.x10] [Byte.x10; Byte.x0a]).
  discriminate.
Defined.

Local Arguments String.append : simpl never.

(** ** Properties of every run *)

Section Runs.

Variable host : Host.
Variable props : Props.
Variable P : Action -> Prop.
Variable I : Store -> Prop.
Hypothesis P_uncaught : forall e, P (Uncaught e).
Hypothesis I_rendered :
  forall st els, I st -> I (mkStore (socket st) (videoList st) els).
Hypothesis ok_entry_points :
  ok P I (joinRoom host props) /\ ok P I (leaveRoom props) /\
  ok P I (shareScreen host props) /\ ok P I (capture host props) /\
  ok P I getCanvas.

Lemma Inv_step s e : Inv P I s -> Inv P I (step host props s e).
Proof.
  intros Hs. destruct ok_entry_points as (Hj & Hl & Hsh & Hc & Hg).
  destruct e as [| | | | |els| |sk m|id o|pc e]; simpl;
    try (apply run_Inv; assumption).
  - destruct Hs as (H1 & H2). split; [apply I_rendered, H1 | exact H2].
  - destruct Hs as (H1 & H2 & H3 & H4 & H5 & H6).
    apply (fold_run_Inv P I P_uncaught (ticks s) (fun cb => cb)); auto.
    unfold Inv; simpl; repeat apply conj; auto.
  - destruct (nth_error (sockets s) sk) as [so|] eqn:E; auto.
    destruct (sk_open so); auto.
    apply (fold_run_Inv P I P_uncaught (listeners_for (msg_name m) so)
             (fun h => h m)); auto.
    destruct Hs as (H1 & H2 & H3 & H4).
    rewrite Forall_forall in H3. specialize (H3 so (nth_error_In _ _ E)).
    unfold listeners_for. rewrite Forall_forall in *.
    intros h Hh. apply in_map_iff in Hh. destruct Hh as (l & <- & Hl').
    apply filter_In in Hl'. apply H3, Hl'.
  - destruct (take_task id (pending s)) as [[t rest]|] eqn:E; auto.
    destruct (settles (task_call t) o); auto.
    destruct Hs as (H1 & H2 & H3 & H4 & H5 & H6).
    destruct (take_task_Forall _ _ _ _ _ H5 E) as (Ht & Hrest).
    apply run_Inv; auto.
    unfold Inv; simpl; repeat apply conj; auto.
  - destruct (nth_error (pcs s) pc) as [po|] eqn:E; auto.
    destruct (assoc (pc_slot e) (pc_handlers po)) as [h|] eqn:Eh; auto.
    apply run_Inv; auto.
    destruct Hs as (H1 & H2 & H3 & H4 & H5).
    rewrite Forall_forall in H4. specialize (H4 po (nth_error_In _ _ E)).
    exact (assoc_Forall (fun h => forall e, ok P I (h e)) _ _ _ H4 Eh e).
Qed.

Lemma Inv_steps es s : Inv P I s -> Inv P I (steps host props s es).
Proof.
  revert s. induction es as [|e es IH]; intros s Hs; simpl; auto.
  apply IH, Inv_step, Hs.
Qed.

End Runs.

Ltac sound_step :=
  first
    [ progress intros
    | apply ok_bind
    | apply ok_try_catch
    | apply ok_forEach
    | exact Logic.I
    | reflexivity
    | assumption
    | discriminate
    | match goal with
      | |- _ /\ _ => split
      | |- _ \/ _ => (left; assumption) || (right; reflexivity)
      | H : _ \/ _ |- _ => destruct H; discriminate
      | |- Forall _ [] => constructor
      | |- ok _ _ (match ?x with _ => _ end) => destruct x eqn:?
      | |- ok _ _ (if ?x then _ else _) => destruct x eqn:?
      end
    | progress cbn ].

Section Sound.

Variable host : Host.
Variable props : Props.

Lemma sound_joinedRoom stream b : sound host props (joinedRoom host stream b).
Proof.
  unfold sound, joinedRoom, nextTick.
  destruct (nextTick_in_scope host); repeat sound_step;
    unfold sound_store in *; simpl;
    apply Forall_app; split; auto; repeat constructor.
Qed.

Lemma sound_on_answer p pc m : sound host props (on_answer p pc m).
Proof. unfold sound, on_answer. repeat sound_step. Qed.

Lemma sound_on_ice_candidate p pc m : sound host props (on_ice_candidate p pc m).
Proof. unfold sound, on_ice_candidate. repeat sound_step. Qed.

Lemma sound_ontrack e : sound host props (ontrack host props e).
Proof.
  unfold sound, ontrack. destruct e; try exact Logic.I.
  apply ok_bind; [unfold log; repeat sound_step | intros; apply sound_joinedRoom].
Qed.

Lemma sound_onicecandidate p e : sound host props (onicecandidate p e).
Proof. unfold sound, onicecandidate. repeat sound_step. Qed.

Lemma sound_oniceconnectionstatechange e : sound host props (oniceconnectionstatechange e).
Proof. unfold sound, oniceconnectionstatechange. repeat sound_step. Qed.

Lemma sound_onerror e : sound host props (onerror e).
Proof. unfold sound, onerror. repeat sound_step. Qed.

Lemma sound_connectToPeer ls p : sound host props (connectToPeer host props ls p).
Proof.
  unfold sound, connectToPeer, log.
  repeat first
    [ apply sound_on_answer | apply sound_on_ice_candidate | apply sound_ontrack
    | apply sound_onicecandidate | apply sound_oniceconnectionstatechange
    | apply sound_onerror | sound_step ].
Qed.

Lemma sound_on_discover ls m : sound host props (on_discover host props ls m).
Proof.
  unfold sound, on_discover, log. destruct m; try exact Logic.I.
  repeat first [ apply sound_connectToPeer | sound_step ].
Qed.

Lemma sound_on_request ls m : sound host props (on_request host props ls m).
Proof.
  unfold sound, on_request, log. destruct m; try exact Logic.I.
  repeat first
    [ apply sound_on_answer | apply sound_on_ice_candidate | apply sound_ontrack
    | apply sound_onicecandidate | apply sound_oniceconnectionstatechange
    | sound_step ].
Qed.

Lemma sound_on_connect_error m : sound host props (on_connect_error m).
Proof. unfold sound, on_connect_error. repeat sound_step. Qed.

Lemma sound_joinRoom : sound host props (joinRoom host props).
Proof.
  unfold sound, joinRoom, log, getUserMedia.
  repeat first
    [ apply sound_joinedRoom | apply sound_on_discover | apply sound_on_request
    | apply sound_on_connect_error | sound_step ].
Qed.

Lemma sound_leaveRoom : sound host props (leaveRoom props).
Proof.
  unfold sound, leaveRoom, log.
  repeat sound_step; unfold sound_store; simpl; constructor.
Qed.

Lemma sound_getCanvas : sound host props getCanvas.
Proof. unfold sound, getCanvas. repeat sound_step. Qed.

Lemma sound_capture : sound host props (capture host props).
Proof. unfold sound, capture. repeat first [apply sound_getCanvas | sound_step]. Qed.

Lemma sound_shareScreen : sound host props (shareScreen host props).
Proof.
  unfold sound, shareScreen, log.
  destruct (mediaDevices host) eqn:E; cbn [negb];
    repeat first [ apply sound_joinedRoom | sound_step ].
Qed.

Lemma reachable_sound es :
  Inv (sound_action host props) sound_store (steps host props init es).
Proof.
  apply Inv_steps.
  - intros e. exact Logic.I.
  - intros st els H. exact H.
  - repeat split.
    + apply sound_joinRoom.
    + apply sound_leaveRoom.
    + apply sound_shareScreen.
    + apply sound_capture.
    + apply sound_getCanvas.
  - unfold Inv, init; simpl. repeat apply conj; constructor.
Qed.

Lemma reachable_sound_action es a :
  In a (trace (steps host props init es)) -> sound_action host props a.
Proof.
  destruct (reachable_sound es) as (_ & H & _).
  rewrite Forall_forall in H. apply H.
Qed.

End Sound.

Section EveryRun.

Variable host : Host.
Variable props : Props.

(** X4: in every run, a socket is opened only with the configured URL and
    the configured, non-empty token; without a token no socket is ever
    opened, whatever is called and whatever arrives. *)
Theorem socket_only_with_token es :
  (forall sk url token,
     In (Io sk url token) (trace (steps host props init es)) ->
     url = socketURL props /\ truthy (jwtToken props) = Some token) /\
  (truthy (jwtToken props) = None ->
   count is_io (trace (steps host props init es)) = 0).
Proof.
  split.
  - intros sk url token Hin.
    exact (reachable_sound_action host props es _ Hin).
  - intros Hnone. apply count_none, forallb_forall. intros a Ha.
    destruct a; try reflexivity.
    destruct (reachable_sound_action host props es _ Ha) as (_ & H).
    congruence.
Qed.

(** X5: with [enableLogs] off, the only thing a run ever writes with
    [console.log] is the unconditional "Peer disconnected" of
    [oniceconnectionstatechange]. *)
Theorem quiet_when_logs_disabled es m :
  enableLogs props = false ->
  In (ConsoleLog m) (trace (steps host props init es)) ->
  m = "Peer disconnected".
Proof.
  intros Hoff Hin.
  destruct (reachable_sound_action host props es _ Hin) as [H|H];
    [congruence | exact H].
Qed.

(** X6: in every run, every entry of the registry carries the id of its
    stream and is muted exactly when it is local. *)
Theorem registry_entries_sound es :
  Forall sound_entry (videoList (store (steps host props init es))).
Proof. destruct (reachable_sound host props es) as (H & _). exact H. Qed.

(** X7: in every run, the camera is requested only where
    [navigator.mediaDevices] exists and only with the configured
    constraints, and the screen only where [navigator.mediaDevices]
    exists. *)
Theorem media_requests_sound es :
  (forall c,
     In (Invoke (GetUserMedia c)) (trace (steps host props init es)) ->
     mediaDevices host = true /\ c = constraints props) /\
  (In (Invoke GetDisplayMedia) (trace (steps host props init es)) ->
   mediaDevices host = true).
Proof.
  split.
  - intros c Hin. exact (reachable_sound_action host props es _ Hin).
  - intros Hin. exact (reachable_sound_action host props es _ Hin).
Qed.

(** X8: in every run, the room announced to the relay ([discover]) and to
    the parent ([opened-room], [left-room]) is the configured [roomId]. *)
Theorem room_id_is_the_configured_one es :
  (forall sk d,
     In (SocketEmit sk "discover" d) (trace (steps host props init es)) ->
     d = ORoom (roomId props)) /\
  (forall ev arg,
     In (Emit ev arg) (trace (steps host props init es)) ->
     ev = "opened-room" \/ ev = "left-room" ->
     arg = AStr (roomId props)).
Proof.
  split.
  - intros sk d Hin.
    exact (reachable_sound_action host props es _ Hin eq_refl).
  - intros ev arg Hin. exact (reachable_sound_action host props es _ Hin).
Qed.

End EveryRun.

(** ** Leaving twice, and negotiations that outlive the room *)

Lemma leaveRoom_exec props s :
  exec (leaveRoom props) s =
    (Returned tt,
     mkState (mkStore None [] (videos (store s)))
       (match socket (store s) with
        | Some sk =>
            update_nth sk (fun so => mkSocketObj false (sk_listeners so))
              (sockets s)
        | None => sockets s
        end)
       (pcs s) (pending s) (next_task s) (ticks s)
       (trace s ++ logged props "Leaving room" ++ stops (videoList (store s)) ++
        disconnects (socket (store s)) ++
        [Emit "left-room" (AStr (roomId props))])).
Proof.
  unfold leaveRoom.
  rewrite straight_log, exec_prepend. cbn [exec].
  rewrite straight_stops, exec_prepend.
  destruct s as [[sk vl els] sks ps pend nt tk tr]; simpl.
  destruct sk as [n|]; simpl; unfold record, set_store, set_sockets; simpl;
    repeat rewrite <- app_assoc; reflexivity.
Qed.

(** X9: leaving a second time (as [onBeforeUnmount] does after a manual
    leave) stops nothing and disconnects nothing: it only emits [left-room]
    again. *)
Theorem leaveRoom_twice props s :
  let s1 := run (leaveRoom props) s in
  let s2 := run (leaveRoom props) s1 in
  store s2 = store s1 /\
  sockets s2 = sockets s1 /\
  trace s2 =
    (trace s1 ++ logged props "Leaving room" ++
     [Emit "left-room" (AStr (roomId props))])%list.
Proof.
  unfold run, finish. rewrite !leaveRoom_exec. cbn.
  repeat apply conj; reflexivity.
Qed.

Section Aftermath.

Variable host : Host.
Variable props : Props.


(** ** Joining: media errors, joining again, connection errors *)

(** X11: when the camera is refused, or [navigator.mediaDevices] is
    missing, the join reports [media-error] and stops there: nothing is
    registered, no ["discover"] or ["request"] listener exists and no
    [discover] is sent; the socket it opened stays open and set. *)
Theorem join_media_errors token :
  truthy (jwtToken props) = Some token ->
  (mediaDevices host = true ->
   forall e,
     let s := steps host props init [CallJoinRoom; Settle 0 (Rejected e)] in
     trace s =
       (logged props "Joining room..." ++
        [Io 0 (socketURL props) token; SocketOn 0 "connect_error";
         Invoke (GetUserMedia (constraints props));
         ConsoleError "getUserMedia failed:";
         Emit "media-error" (AErr e)])%list /\
     videoList (store s) = [] /\
     socket (store s) = Some 0 /\
     sockets s = [mkSocketObj true [("connect_error", on_connect_error)]] /\
     pending s = []) /\
  (mediaDevices host = false ->
   let s := step host props init CallJoinRoom in
   trace s =
     (logged props "Joining room..." ++
      [Io 0 (socketURL props) token; SocketOn 0 "connect_error";
       ConsoleError "getUserMedia failed:";
       Emit "media-error"
         (AErr (TypeError "Cannot read properties of undefined"))])%list /\
   videoList (store s) = [] /\
   socket (store s) = Some 0 /\
   sockets s = [mkSocketObj true [("connect_error", on_connect_error)]] /\
   pending s = []).
Proof.
  intros Ht. split; intros Hm; [intros e|];
    unfold steps, step, fold_left, run, joinRoom, getUserMedia, log, logged;
    rewrite Ht, Hm; destruct (enableLogs props); cbn;
    repeat apply conj; reflexivity.
Qed.

(** [joinRoom] up to its [await], from any state. *)
Lemma joinRoom_starts token s :
  truthy (jwtToken props) = Some token ->
  mediaDevices host = true ->
  exists k,
    exec (joinRoom host props) s =
      (Suspended,
       mkState
         (mkStore (Some (length (sockets s))) (videoList (store s))
            (videos (store s)))
         (sockets s ++ [mkSocketObj true [("connect_error", on_connect_error)]])
         (pcs s)
         (mkTask (next_task s) (GetUserMedia (constraints props)) k
            :: pending s)
         (S (next_task s)) (ticks s)
         (trace s ++ logged props "Joining room..." ++
          [Io (length (sockets s)) (socketURL props) token;
           SocketOn (length (sockets s)) "connect_error";
           Invoke (GetUserMedia (constraints props))])).
Proof.
  intros Ht Hm. unfold joinRoom, getUserMedia.
  rewrite straight_log, exec_prepend, Ht, Hm.
  cbn -[joinedRoom on_discover on_request on_connect_error constraints
        update_nth].
  rewrite update_nth_last.
  eexists. unfold park, records.
  cbn -[joinedRoom on_discover on_request on_connect_error constraints].
  repeat rewrite <- app_assoc. reflexivity.
Qed.

(** X12: [joinRoom] never disconnects: called in any state, also one
    already joined, it opens a further socket and points the ref at it; the
    sockets opened before stay open with their listeners, and the registry
    and the connections are untouched. *)
Theorem joinRoom_opens_a_further_socket token s :
  truthy (jwtToken props) = Some token ->
  mediaDevices host = true ->
  let s1 := run (joinRoom host props) s in
  socket (store s1) = Some (length (sockets s)) /\
  sockets s1 =
    (sockets s ++
     [mkSocketObj true [("connect_error", on_connect_error)]])%list /\
  videoList (store s1) = videoList (store s) /\
  pcs s1 = pcs s /\
  trace s1 =
    (trace s ++ logged props "Joining room..." ++
     [Io (length (sockets s)) (socketURL props) token;
      SocketOn (length (sockets s)) "connect_error";
      Invoke (GetUserMedia (constraints props))])%list.
Proof.
  intros Ht Hm. destruct (joinRoom_starts token s Ht Hm) as (k & E).
  unfold run, finish. rewrite E. cbn. repeat apply conj; reflexivity.
Qed.

End Aftermath.

(** ** Events of a peer connection, and the answer of a peer *)

Section PeerEvents.

Variable host : Host.
Variable props : Props.

(** X14: the local ICE candidates of a connection are relayed to the peer
    the connection was created for, over the socket the ref points at; the
    null candidate that ends gathering is not relayed. *)
Theorem local_candidates_go_to_the_peer ls peerID s sk c :
  socket (store s) = Some sk ->
  ((peerID =? socket_id host sk) = false ->
   let s1 := run (connectToPeer host props ls peerID) s in
   trace (step host props s1
            (PcFire (length (pcs s)) (OnIceCandidate (Some c))))
     = (trace s1 ++ [SocketEmit sk "ice-candidate" (OCandidate peerID c)])%list
   /\ step host props s1 (PcFire (length (pcs s)) (OnIceCandidate None)) = s1) /\
  (let s1 := run (on_request host props ls (InRequest peerID)) s in
   trace (step host props s1
            (PcFire (length (pcs s)) (OnIceCandidate (Some c))))
     = (trace s1 ++ [SocketEmit sk "ice-candidate" (OCandidate peerID c)])%list
   /\ step host props s1 (PcFire (length (pcs s)) (OnIceCandidate None)) = s1).
Proof.
  intros Hs. split.
  - intros Hp.
    destruct (connectToPeer_starts host props ls peerID s sk Hs Hp)
      as (k & s1 & E & Hst & Hpcs & _).
    unfold run, finish. rewrite E. cbn [fst snd]. unfold step.
    rewrite Hpcs, nth_error_app2, Nat.sub_diag by apply Nat.le_refl.
    cbn. unfold run, finish. cbn [exec]. rewrite Hst, Hs. cbn.
    split; reflexivity.
  - destruct (on_request_starts host props ls peerID s)
      as (k & s1 & E & Hst & Hpcs & _).
    unfold run, finish. rewrite E. cbn [fst snd]. unfold step.
    rewrite Hpcs, nth_error_app2, Nat.sub_diag by apply Nat.le_refl.
    cbn. unfold run, finish. cbn [exec]. rewrite Hst, Hs. cbn.
    split; reflexivity.
Qed.

(** X15: a remote track arriving on a connection registers its stream as a
    remote entry (not local, not muted) unless its id is registered already,
    and emits [joined-room] with the stream's id either way. *)
Theorem remote_track_registers_stream ls peerID s sk remote :
  global_nextTick host = true ->
  socket (store s) = Some sk ->
  (peerID =? socket_id host sk) = false ->
  let s1 := run (connectToPeer host props ls peerID) s in
  let s2 := step host props s1 (PcFire (length (pcs s)) (OnTrack remote)) in
  store s2 = registered remote false (store s1) /\
  trace s2 =
    (trace s1 ++ logged props "Received remote stream" ++
     [Emit "joined-room" (AStr (stream_id remote))])%list.
Proof.
  intros Hn Hs Hp.
  destruct (connectToPeer_starts host props ls peerID s sk Hs Hp)
    as (k & s1 & E & Hst & Hpcs & _).
  assert (E1 : run (connectToPeer host props ls peerID) s = s1)
    by (unfold run, finish; rewrite E; reflexivity).
  cbv zeta. rewrite E1. unfold step.
  rewrite Hpcs, nth_error_app2, Nat.sub_diag by apply Nat.le_refl.
  cbn [nth_error pc_handlers pc_slot assoc String.eqb Ascii.eqb Bool.eqb].
  unfold ontrack, run.
  rewrite straight_log, exec_prepend.
  unfold registered, joinedRoom, nextTick, nextTick_in_scope, finish.
  cbn [exec existsb vue_imports String.eqb Ascii.eqb Bool.eqb orb].
  rewrite Hn. cbn [store records orb].
  destruct (find _ (videoList (store s1))); cbn; split; try reflexivity;
    now rewrite <- app_assoc.
Qed.


(** X17: after [joinedRoom], once the elements are rendered and the tick
    runs, every rendered element whose id is the stream's id plays the
    stream and the other elements are as they were. *)
Theorem tick_binds_stream stream b s els :
  global_nextTick host = true ->
  ticks s = [] ->
  let s1 := run (joinedRoom host stream b) s in
  let s2 := step host props (step host props s1 (Rendered els)) Tick in
  videos (store s2) = map (bound_to stream) els /\
  ticks s2 = [] /\
  videoList (store s2) = videoList (store s1).
Proof.
  intros Hn Ht.
  unfold run, finish, joinedRoom, nextTick, nextTick_in_scope.
  cbn [exec existsb vue_imports String.eqb Ascii.eqb Bool.eqb orb].
  rewrite Hn.
  destruct (find _ (videoList (store s))); cbn; rewrite Ht; cbn;
    repeat apply conj; reflexivity.
Qed.

End PeerEvents.

(** ** Screen sharing ([shareScreen], lines 396-416) *)

Section Share.

Variable host : Host.
Variable props : Props.

(** [shareScreen] up to its [await]. *)
Lemma shareScreen_starts s :
  mediaDevices host = true ->
  exists k,
    exec (shareScreen host props) s =
      (Suspended,
       mkState (store s) (sockets s) (pcs s)
         (mkTask (next_task s) GetDisplayMedia k :: pending s)
         (S (next_task s)) (ticks s)
         (trace s ++ logged props "Starting screen share..." ++
          [Invoke GetDisplayMedia])) /\
    (forall s' e,
       exec (k (Rejected e)) s' =
         (Returned tt,
          records [ConsoleError "Error sharing screen:";
                   Emit "media-error" (AErr e)] s')) /\
    (forall s' scr,
       exec (k (Resolved (VStream scr))) s' =
         exec (try_catch
                 (joinedRoom host scr true ;;
                  emit "share-started" (AStr (stream_id scr)))
                 (fun error =>
                    console_error "Error sharing screen:" ;;
                    emit "media-error" (AErr error)) ;; Ret tt) s').
Proof.
  intros Hm. unfold shareScreen.
  rewrite straight_log, exec_prepend, Hm. cbn.
  eexists. split; [|split].
  - unfold park, record, records; cbn. repeat rewrite <- app_assoc. reflexivity.
  - intros s' e. cbn. unfold records, record; cbn.
    repeat rewrite <- app_assoc. reflexivity.
  - intros s' scr. reflexivity.
Qed.

(** X18: the failures of [shareScreen] are all reported as [media-error]:
    without [navigator.mediaDevices] nothing is requested; a refused
    capture is reported with its error; and where [nextTick] is unbound the
    screen stream is registered but the ReferenceError of [joinedRoom] is
    caught and reported, and [share-started] never fires. *)
Theorem shareScreen_reports_failures s :
  (mediaDevices host = false ->
   exec (shareScreen host props) s =
     (Returned tt,
      records
        (logged props "Starting screen share..." ++
         [ConsoleError "HTTPS is required to load cameras for screen sharing.";
          Emit "media-error" (AStr "HTTPS is required for screen sharing")])
        s)) /\
  (mediaDevices host = true ->
   let s1 := run (shareScreen host props) s in
   (forall e,
      let s2 := step host props s1 (Settle (next_task s) (Rejected e)) in
      store s2 = store s1 /\
      trace s2 =
        (trace s1 ++
         [ConsoleError "Error sharing screen:"; Emit "media-error" (AErr e)])%list) /\
   (forall scr,
      global_nextTick host = false ->
      let s2 :=
        step host props s1 (Settle (next_task s) (Resolved (VStream scr))) in
      store s2 = registered scr true (store s1) /\
      trace s2 =
        (trace s1 ++
         [ConsoleError "Error sharing screen:";
          Emit "media-error" (AErr (ReferenceError "nextTick"))])%list)).
Proof.
  split.
  - intros Hm. unfold shareScreen.
    rewrite straight_log, exec_prepend, Hm. cbn.
    unfold records, record; cbn. repeat rewrite <- app_assoc. reflexivity.
  - intros Hm. destruct (shareScreen_starts s Hm) as (k & E & Hrej & Hres).
    assert (E1 : run (shareScreen host props) s =
                 snd (exec (shareScreen host props) s))
      by (unfold run, finish; rewrite E; reflexivity).
    cbv zeta. rewrite E1, E. cbn [snd]. split.
    + intros e. unfold step. cbn [pending take_task task_id].
      rewrite Nat.eqb_refl. cbn [task_call settles task_k].
      unfold run, finish. rewrite Hrej. cbn. split; [reflexivity|].
      now rewrite <- !app_assoc.
    + intros scr Hn. unfold step. cbn [pending take_task task_id].
      rewrite Nat.eqb_refl. cbn [task_call settles task_k].
      unfold run, finish. rewrite Hres.
      unfold registered, joinedRoom, nextTick, nextTick_in_scope.
      cbn [exec bind try_catch existsb vue_imports String.eqb Ascii.eqb
           Bool.eqb orb].
      rewrite Hn. cbn [store set_pending orb].
      destruct (find _ (videoList (store s))); cbn; split; try reflexivity;
        now rewrite <- !app_assoc.
Qed.

(** X19: a granted screen capture is registered as a local, muted entry
    (unless its id is registered already) and announced with [joined-room]
    and then [share-started]; it is attached to no peer connection. *)
Theorem shareScreen_registers_screen s scr :
  mediaDevices host = true ->
  global_nextTick host = true ->
  let s1 := run (shareScreen host props) s in
  let s2 :=
    step host props s1 (Settle (next_task s) (Resolved (VStream scr))) in
  store s2 = registered scr true (store s) /\
  pcs s2 = pcs s /\
  since (length (trace s)) (trace s2) =
    (logged props "Starting screen share..." ++
     [Invoke GetDisplayMedia;
      Emit "joined-room" (AStr (stream_id scr));
      Emit "share-started" (AStr (stream_id scr))])%list.
Proof.
  intros Hm Hn. destruct (shareScreen_starts s Hm) as (k & E & Hrej & Hres).
  assert (E1 : run (shareScreen host props) s =
               snd (exec (shareScreen host props) s))
    by (unfold run, finish; rewrite E; reflexivity).
  cbv zeta. rewrite E1, E. cbn [snd].
  unfold step. cbn [pending take_task task_id].
  rewrite Nat.eqb_refl. cbn [task_call settles task_k].
  unfold run, finish. rewrite Hres.
  unfold registered, joinedRoom, nextTick, nextTick_in_scope.
  cbn [exec bind try_catch existsb vue_imports String.eqb Ascii.eqb
       Bool.eqb orb].
  rewrite Hn. cbn [store set_pending orb].
  destruct (find _ (videoList (store s))); cbn; repeat apply conj;
    try reflexivity; repeat rewrite <- app_assoc; apply since_app.
Qed.

End Share.

(** ** The further properties at concrete inputs *)

Ltac in_trace := vm_compute; repeat first [left; reflexivity | right].

Lemma socket_only_with_token_witness :
  In (Io 0 "https://relay.example" "token")
     (trace (steps browser_with_nextTick demo_props init share_run)) /\
  "https://relay.example" = socketURL demo_props /\
  truthy (jwtToken demo_props) = Some "token".
Proof.
  split; [in_trace|].
  apply (proj1 (socket_only_with_token browser_with_nextTick demo_props
                  share_run) 0).
  in_trace.
Defined.

Lemma quiet_when_logs_disabled_witness :
  enableLogs demo_props = false /\
  In (ConsoleLog "Peer disconnected")
     (trace (steps browser_with_nextTick demo_props init peer_disconnected_run))
  /\ "Peer disconnected" = "Peer disconnected".
Proof.
  split; [reflexivity|]. split; [in_trace|].
  apply (quiet_when_logs_disabled browser_with_nextTick demo_props
           peer_disconnected_run "Peer disconnected").
  - reflexivity.
  - in_trace.
Defined.

Lemma media_requests_sound_witness :
  In (Invoke GetDisplayMedia)
     (trace (steps browser_with_nextTick demo_props init share_run)) /\
  mediaDevices browser_with_nextTick = true.
Proof.
  split; [in_trace|].
  apply (proj2 (media_requests_sound browser_with_nextTick demo_props
                  share_run)).
  in_trace.
Defined.

Lemma room_id_is_the_configured_one_witness :
  In (Emit "left-room" (AStr "abc123"))
     (trace (steps browser_with_nextTick demo_props init share_run)) /\
  AStr "abc123" = AStr (roomId demo_props).
Proof.
  split; [in_trace|].
  apply (proj2 (room_id_is_the_configured_one browser_with_nextTick demo_props
                  share_run) "left-room" (AStr "abc123")).
  - in_trace.
  - right; reflexivity.
Defined.


Lemma join_media_errors_witness :
  truthy (jwtToken demo_props) = Some "token" /\
  mediaDevices insecure_page = false /\
  trace (step insecure_page demo_props init CallJoinRoom) =
    [Io 0 "https://relay.example" "token"; SocketOn 0 "connect_error";
     ConsoleError "getUserMedia failed:";
     Emit "media-error"
       (AErr (TypeError "Cannot read properties of undefined"))].
Proof.
  split; [reflexivity|]. split; [reflexivity|].
  apply (proj2 (join_media_errors insecure_page demo_props "token" eq_refl)
           eq_refl).
Defined.

Lemma joinRoom_opens_a_further_socket_witness :
  truthy (jwtToken demo_props) = Some "token" /\
  mediaDevices browser_with_nextTick = true /\
  socket (store (run (joinRoom browser_with_nextTick demo_props) joined))
    = Some 1.
Proof.
  split; [reflexivity|]. split; [reflexivity|].
  apply (joinRoom_opens_a_further_socket browser_with_nextTick demo_props
           "token" joined eq_refl eq_refl).
Defined.

Lemma local_candidates_go_to_the_peer_witness :
  socket (store joined) = Some 0 /\
  trace
    (step browser_with_nextTick demo_props
       (run (on_request browser_with_nextTick demo_props cam (InRequest "p2"))
          joined)
       (PcFire 0 (OnIceCandidate (Some "c1"))))
    = (trace
         (run (on_request browser_with_nextTick demo_props cam (InRequest "p2"))
            joined) ++
       [SocketEmit 0 "ice-candidate" (OCandidate "p2" "c1")])%list.
Proof.
  split; [reflexivity|].
  apply (proj2 (local_candidates_go_to_the_peer browser_with_nextTick
                  demo_props cam "p2" joined 0 "c1" eq_refl)).
Defined.

Lemma remote_track_registers_stream_witness :
  global_nextTick browser_with_nextTick = true /\
  socket (store joined) = Some 0 /\
  ("p2" =? socket_id browser_with_nextTick 0) = false /\
  videoList
    (store
       (step browser_with_nextTick demo_props
          (run (connectToPeer browser_with_nextTick demo_props cam "p2") joined)
          (PcFire 0 (OnTrack (mkStream "remote" ["r0"])))))
    = [entry cam true; entry (mkStream "remote" ["r0"]) false].
Proof.
  split; [reflexivity|]. split; [reflexivity|]. split; [reflexivity|].
  pose proof (remote_track_registers_stream browser_with_nextTick demo_props
                cam "p2" joined 0 (mkStream "remote" ["r0"])
                eq_refl eq_refl eq_refl) as H.
  cbv zeta in H. destruct H as (H & _).
  exact (f_equal videoList H).
Defined.


Lemma tick_binds_stream_witness :
  global_nextTick browser_with_nextTick = true /\
  ticks init = [] /\
  videos
    (store
       (step browser_with_nextTick demo_props
          (step browser_with_nextTick demo_props
             (run (joinedRoom browser_with_nextTick cam true) init)
             (Rendered [mkVideoElement "cam" 160 213 None;
                        mkVideoElement "other" 160 213 None]))
          Tick))
    = [mkVideoElement "cam" 160 213 (Some cam);
       mkVideoElement "other" 160 213 None].
Proof.
  split; [reflexivity|]. split; [reflexivity|].
  apply (tick_binds_stream browser_with_nextTick demo_props cam true init
           [mkVideoElement "cam" 160 213 None;
            mkVideoElement "other" 160 213 None] eq_refl eq_refl).
Defined.

Lemma shareScreen_reports_failures_witness :
  mediaDevices insecure_page = false /\
  exec (shareScreen insecure_page demo_props) init =
    (Returned tt,
     records
       [ConsoleError "HTTPS is required to load cameras for screen sharing.";
        Emit "media-error" (AStr "HTTPS is required for screen sharing")]
       init).
Proof.
  split; [reflexivity|].
  apply (proj1 (shareScreen_reports_failures insecure_page demo_props init)).
  reflexivity.
Defined.

Lemma shareScreen_registers_screen_witness :
  mediaDevices browser_with_nextTick = true /\
  global_nextTick browser_with_nextTick = true /\
  videoList
    (store
       (step browser_with_nextTick demo_props
          (run (shareScreen browser_with_nextTick demo_props) joined)
          (Settle 1 (Resolved (VStream screen)))))
    = [entry cam true; entry screen true].
Proof.
  split; [reflexivity|]. split; [reflexivity|].
  pose proof (shareScreen_registers_screen browser_with_nextTick demo_props
                joined screen eq_refl eq_refl) as H.
  cbv zeta in H. destruct H as (H & _).
  exact (f_equal videoList H).
Defined.

(** * Received messages *)

(** ** Programs that leave the listening alone keep it along every run *)

Lemma Forall2_same {X} (R : X -> X -> Prop) (l : list X) :
  (forall x, R x x) -> Forall2 R l l.
Proof. intros H. induction l; constructor; auto. Qed.

Lemma Forall2_chain {X} (R : X -> X -> Prop) (l1 l2 l3 : list X) :
  (forall x y z, R x y -> R y z -> R x z) ->
  Forall2 R l1 l2 -> Forall2 R l2 l3 -> Forall2 R l1 l3.
Proof.
  intros Ht H12. revert l3. induction H12 as [|x y l1 l2 Hxy H12 IH];
    intros l3 H23; inversion H23; subst; constructor; eauto.
Qed.

Lemma Forall2_update_nth {X} (R : X -> X -> Prop) n f (l : list X) :
  (forall x, R x x) -> (forall x, R x (f x)) -> Forall2 R l (update_nth n f l).
Proof.
  intros Hr Hf. revert n. induction l as [|x l IH]; intros n; simpl.
  - constructor.
  - destruct n; constructor; auto. apply Forall2_same, Hr.
Qed.

Lemma listeners_for_added ev0 ev h so :
  (ev =? ev0) = false ->
  listeners_for ev0 (mkSocketObj (sk_open so) (sk_listeners so ++ [(ev, h)]))
    = listeners_for ev0 so.
Proof.
  intros E. unfold listeners_for. simpl.
  rewrite filter_app. simpl. rewrite E. now rewrite app_nil_r.
Qed.

Section QuietRuns.

Variable F : string -> bool.
Variable D : bool.
Variable I : Store -> Prop.

Lemma same_listening_refl so : same_listening F D so so.
Proof. split; auto. Qed.

Lemma same_listening_trans so1 so2 so3 :
  same_listening F D so1 so2 -> same_listening F D so2 so3 ->
  same_listening F D so1 so3.
Proof.
  intros (H1 & H2) (H3 & H4). split.
  - intros ev Hev. rewrite H3, H1; auto.
  - intros Hd. rewrite H4, H2; auto.
Qed.

Lemma quiet_bind {A B} (p : Prog A) (f : A -> Prog B) :
  quiet F D I p -> (forall a, quiet F D I (f a)) -> quiet F D I (bind p f).
Proof.
  intros Hp Hf. induction p; simpl in *; intuition auto.
Qed.

Lemma quiet_try_catch {A} (p : Prog A) h :
  quiet F D I p -> (forall e, quiet F D I (h e)) -> quiet F D I (try_catch p h).
Proof.
  intros Hp Hh. induction p; simpl in *; intuition auto.
Qed.

Lemma quiet_forEach {X} (l : list X) f :
  (forall x, quiet F D I (f x)) -> quiet F D I (forEach l f).
Proof.
  intros Hf. induction l as [|x l IH]; simpl; [exact Logic.I|].
  apply quiet_bind; auto.
Qed.

Lemma kept_trans s1 s2 s3 :
  Forall2 (same_listening F D) (sockets s1) (sockets s2) ->
  kept F D I s2 s3 -> kept F D I s1 s3.
Proof.
  intros H12 (H & H23). split; [exact H|].
  eapply Forall2_chain; eauto using same_listening_trans.
Qed.

Lemma exec_quiet {A} (p : Prog A) s :
  quiet F D I p -> QInv F D I s -> kept F D I s (snd (exec p s)).
Proof.
  revert s. induction p as
    [T a0|T e|T act0 k IH|T k IH|T st k IH|T k IH|T o k IH|T sk ev h IHh k IH
    |T pc sl h IHh k IH|T sk k IH|T c k IH|T cb IHcb k IH|T q IHq k IH];
    intros s Hq Hs; simpl in *.
  - split; [exact Hs | apply Forall2_same, same_listening_refl].
  - split; [exact Hs | apply Forall2_same, same_listening_refl].
  - apply (kept_trans s (record act0 s)).
    + apply Forall2_same, same_listening_refl.
    + apply IH; auto.
  - apply IH; auto. apply Hq, Hs.
  - destruct Hq as (Hst & Hk). apply (kept_trans s (set_store st s)).
    + apply Forall2_same, same_listening_refl.
    + apply IH; auto. destruct Hs as (H1 & H2). split; auto.
  - contradiction.
  - apply (kept_trans s (set_pcs (pcs s ++ [mkPcObj o []]) s)).
    + apply Forall2_same, same_listening_refl.
    + apply IH; auto. destruct Hs as (H1 & H2 & H3 & H4 & H5).
      unfold QInv; simpl; repeat apply conj; auto; try apply H5.
      apply Forall_app; split; auto.
  - destruct Hq as (Hev & Hh & Hk).
    eapply kept_trans; [|apply IH; [exact Hk|]].
    + simpl. apply Forall2_update_nth; [apply same_listening_refl|].
      intros so. split; [|reflexivity].
      intros ev0 Hev0. apply listeners_for_added.
      destruct (ev =? ev0) eqn:E; [|reflexivity].
      apply String.eqb_eq in E. congruence.
    + destruct Hs as (H1 & H2 & H3 & H4).
      unfold QInv; simpl; repeat apply conj; auto; try apply H4.
      apply Forall_update_nth; auto. intros so Hso; simpl.
      apply Forall_app; split; auto.
  - destruct Hq as (Hh & Hk).
    eapply kept_trans; [|apply IH; [exact Hk|]].
    + simpl. apply Forall2_same, same_listening_refl.
    + destruct Hs as (H1 & H2 & H3 & H4 & H5).
      unfold QInv; simpl; repeat apply conj; auto; try apply H5.
      apply Forall_update_nth; auto. intros po Hpo; simpl. constructor; auto.
  - destruct Hq as (Hd & Hk).
    eapply kept_trans; [|apply IH; [exact Hk|]].
    + simpl. apply Forall2_update_nth; [apply same_listening_refl|].
      intros so. split; [reflexivity | congruence].
    + destruct Hs as (H1 & H2 & H3 & H4).
      unfold QInv; simpl; repeat apply conj; auto; try apply H4.
      apply Forall_update_nth; auto.
  - split; [|apply Forall2_same, same_listening_refl].
    destruct Hs as (H1 & H2 & H3 & H4 & H5).
    unfold QInv; simpl; repeat apply conj; auto.
    constructor; auto. intros o; simpl. apply quiet_bind; simpl; auto.
  - destruct Hq as (Hcb & Hk).
    eapply kept_trans; [|apply IH; [exact Hk|]].
    + simpl. apply Forall2_same, same_listening_refl.
    + destruct Hs as (H1 & H2 & H3 & H4 & H5).
      unfold QInv; simpl; repeat apply conj; auto.
      apply Forall_app; split; auto.
  - destruct Hq as (Hq & Hk).
    destruct (IHq s Hq Hs) as (Hs1 & H12).
    assert (Hf : kept F D I s (finish (exec q s))).
    { unfold finish. destruct (fst (exec q s)); split; assumption. }
    destruct Hf as (Hf1 & Hf2).
    eapply kept_trans; [exact Hf2 | apply IH; auto].
Qed.

Lemma run_quiet {A} (p : Prog A) s :
  quiet F D I p -> QInv F D I s -> kept F D I s (run p s).
Proof.
  intros Hq Hs. destruct (exec_quiet p s Hq Hs) as (H1 & H2).
  unfold run, finish. destruct (fst (exec p s)); split; assumption.
Qed.

Lemma fold_run_quiet {X} (l : list X) (f : X -> Prog unit) s :
  Forall (fun x => quiet F D I (f x)) l -> QInv F D I s ->
  kept F D I s (fold_left (fun s' x => run (f x) s') l s).
Proof.
  intros Hl. revert s. induction Hl as [|x l Hx Hl IH]; intros s Hs; simpl.
  - split; [exact Hs | apply Forall2_same, same_listening_refl].
  - destruct (run_quiet (f x) s Hx Hs) as (H1 & H2).
    eapply kept_trans; [exact H2 | apply IH, H1].
Qed.

Variable host : Host.
Variable props : Props.
Hypothesis I_rendered :
  forall st els, I st -> I (mkStore (socket st) (videoList st) els).
Hypothesis quiet_entry_points :
  quiet F D I (shareScreen host props) /\ quiet F D I (capture host props) /\
  quiet F D I getCanvas.

(** Every event but a [joinRoom()] (and a [leaveRoom()], unless it is
    quiet too). *)
Lemma step_quiet s e :
  e <> CallJoinRoom ->
  (e = CallLeaveRoom -> quiet F D I (leaveRoom props)) ->
  QInv F D I s -> kept F D I s (step host props s e).
Proof.
  intros Hj Hl Hs. destruct quiet_entry_points as (Hsh & Hc & Hg).
  destruct e as [| | | | |els| |sk m|id o|pc e]; simpl;
    try (apply run_quiet; auto; fail).
  - contradiction.
  - split; [|apply Forall2_same, same_listening_refl].
    destruct Hs as (H1 & H2). split; [apply I_rendered, H1 | exact H2].
  - apply (kept_trans s (set_ticks [] s)).
    + apply Forall2_same, same_listening_refl.
    + destruct Hs as (H1 & H2 & H3 & H4 & H5).
      apply (fold_run_quiet (ticks s) (fun cb => cb)); auto.
      unfold QInv; simpl; repeat apply conj; auto.
  - destruct (nth_error (sockets s) sk) as [so|] eqn:E;
      [|split; [exact Hs | apply Forall2_same, same_listening_refl]].
    destruct (sk_open so);
      [|split; [exact Hs | apply Forall2_same, same_listening_refl]].
    apply (fold_run_quiet (listeners_for (msg_name m) so) (fun h => h m)); auto.
    destruct Hs as (H1 & H2 & H3 & H4).
    rewrite Forall_forall in H2. specialize (H2 so (nth_error_In _ _ E)).
    unfold listeners_for. rewrite Forall_forall in *.
    intros h Hh. apply in_map_iff in Hh. destruct Hh as (l & <- & Hl').
    apply filter_In in Hl'. apply H2, Hl'.
  - destruct (take_task id (pending s)) as [[t rest]|] eqn:E;
      [|split; [exact Hs | apply Forall2_same, same_listening_refl]].
    destruct (settles (task_call t) o);
      [|split; [exact Hs | apply Forall2_same, same_listening_refl]].
    destruct Hs as (H1 & H2 & H3 & H4 & H5).
    destruct (take_task_Forall _ _ _ _ _ H4 E) as (Ht & Hrest).
    apply (kept_trans s (set_pending rest s)).
    + apply Forall2_same, same_listening_refl.
    + apply run_quiet; auto.
      unfold QInv; simpl; repeat apply conj; auto.
  - destruct (nth_error (pcs s) pc) as [po|] eqn:E;
      [|split; [exact Hs | apply Forall2_same, same_listening_refl]].
    destruct (assoc (pc_slot e) (pc_handlers po)) as [h|] eqn:Eh;
      [|split; [exact Hs | apply Forall2_same, same_listening_refl]].
    apply run_quiet; auto.
    destruct Hs as (H1 & H2 & H3 & H4 & H5).
    rewrite Forall_forall in H3. specialize (H3 po (nth_error_In _ _ E)).
    exact (assoc_Forall (fun h => forall e, quiet F D I (h e)) _ _ _ H3 Eh e).
Qed.

End QuietRuns.

Ltac quiet_step :=
  first
    [ progress intros
    | apply quiet_bind
    | apply quiet_try_catch
    | apply quiet_forEach
    | exact Logic.I
    | reflexivity
    | assumption
    | match goal with
      | |- _ /\ _ => split
      | H : forall st vl els, ?I st -> ?I (mkStore (socket st) vl els)
        |- ?I (mkStore (socket _) _ _) => apply H
      | |- quiet _ _ _ (match ?x with _ => _ end) => destruct x eqn:?
      | |- quiet _ _ _ (if ?x then _ else _) => destruct x eqn:?
      end
    | progress cbn ].

Section QuietPrograms.

Variable F : string -> bool.
Variable D : bool.
Variable I : Store -> Prop.
Variable host : Host.
Variable props : Props.
Hypothesis F_answer : F "answer" = false.
Hypothesis F_ice_candidate : F "ice-candidate" = false.
Hypothesis I_kept :
  forall st vl els, I st -> I (mkStore (socket st) vl els).

Lemma quiet_joinedRoom stream b : quiet F D I (joinedRoom host stream b).
Proof.
  unfold joinedRoom, nextTick.
  destruct (nextTick_in_scope host); repeat quiet_step.
Qed.

Lemma quiet_on_answer p pc m : quiet F D I (on_answer p pc m).
Proof. unfold on_answer. repeat quiet_step. Qed.

Lemma quiet_on_ice_candidate p pc m : quiet F D I (on_ice_candidate p pc m).
Proof. unfold on_ice_candidate. repeat quiet_step. Qed.

Lemma quiet_ontrack e : quiet F D I (ontrack host props e).
Proof.
  unfold ontrack. destruct e; try exact Logic.I.
  apply quiet_bind; [unfold log; repeat quiet_step
                    | intros; apply quiet_joinedRoom].
Qed.

Lemma quiet_onicecandidate p e : quiet F D I (onicecandidate p e).
Proof. unfold onicecandidate. repeat quiet_step. Qed.

Lemma quiet_oniceconnectionstatechange e :
  quiet F D I (oniceconnectionstatechange e).
Proof. unfold oniceconnectionstatechange. repeat quiet_step. Qed.

Lemma quiet_onerror e : quiet F D I (onerror e).
Proof. unfold onerror. repeat quiet_step. Qed.

Lemma quiet_connectToPeer ls p : quiet F D I (connectToPeer host props ls p).
Proof.
  unfold connectToPeer, log.
  repeat first
    [ apply quiet_on_answer | apply quiet_on_ice_candidate | apply quiet_ontrack
    | apply quiet_onicecandidate | apply quiet_oniceconnectionstatechange
    | apply quiet_onerror | quiet_step ].
Qed.

Lemma quiet_on_discover ls m : quiet F D I (on_discover host props ls m).
Proof.
  unfold on_discover, log. destruct m; try exact Logic.I.
  repeat first [ apply quiet_connectToPeer | quiet_step ].
Qed.

Lemma quiet_on_request ls m : quiet F D I (on_request host props ls m).
Proof.
  unfold on_request, log. destruct m; try exact Logic.I.
  repeat first
    [ apply quiet_on_answer | apply quiet_on_ice_candidate | apply quiet_ontrack
    | apply quiet_onicecandidate | apply quiet_oniceconnectionstatechange
    | quiet_step ].
Qed.

Lemma quiet_on_connect_error m : quiet F D I (on_connect_error m).
Proof. unfold on_connect_error. repeat quiet_step. Qed.

Lemma quiet_getCanvas : quiet F D I getCanvas.
Proof. unfold getCanvas. repeat quiet_step. Qed.

Lemma quiet_capture : quiet F D I (capture host props).
Proof. unfold capture. repeat first [apply quiet_getCanvas | quiet_step]. Qed.

Lemma quiet_shareScreen : quiet F D I (shareScreen host props).
Proof.
  unfold shareScreen, log.
  repeat first [ apply quiet_joinedRoom | quiet_step ].
Qed.

End QuietPrograms.

(** ** Connection errors of a socket *)

Lemma reports_errors_kept s s' :
  Forall2 (same_listening is_connect_error true) (sockets s) (sockets s') ->
  reports_errors s -> reports_errors s'.
Proof.
  unfold reports_errors. intros H. induction H as [|so so' l l' Hso H IH];
    intros Hl; [constructor|].
  inversion Hl; subst. constructor; auto.
  destruct Hso as (Hso & _). rewrite Hso; auto.
Qed.

Lemma Event_is_join (e : Event) : e = CallJoinRoom \/ e <> CallJoinRoom.
Proof. destruct e; (now left) || (right; discriminate). Qed.

Section ConnectErrors.

Variable host : Host.
Variable props : Props.

Lemma quiet_leaveRoom :
  quiet is_connect_error true any_store (leaveRoom props).
Proof. unfold leaveRoom, log, any_store. repeat quiet_step. Qed.

(** [joinRoom] gives its new socket the listener and touches no other. *)
Lemma joinRoom_reports_errors s :
  reports_errors s -> QInv is_connect_error true any_store s ->
  reports_errors (run (joinRoom host props) s) /\
  QInv is_connect_error true any_store (run (joinRoom host props) s).
Proof.
  intros Hr Hs. unfold run, joinRoom.
  rewrite straight_log, exec_prepend.
  destruct (truthy (jwtToken props)) as [token|].
  - cbn -[getUserMedia joinedRoom on_discover on_request on_connect_error
          constraints update_nth try_catch].
    rewrite update_nth_last.
    match goal with
    | |- context [exec ?p ?s3] =>
        assert (Hq : quiet is_connect_error true any_store p);
        [|assert (Hs3 : QInv is_connect_error true any_store s3);
          [|assert (Hr3 : reports_errors s3);
            [|destruct (run_quiet is_connect_error true any_store p s3 Hq Hs3)
                as (H1 & H2);
              split; [exact (reports_errors_kept _ _ H2 Hr3) | exact H1]]]]
    end.
    + unfold getUserMedia, log, any_store.
      repeat first
        [ apply quiet_joinedRoom | apply quiet_on_discover
        | apply quiet_on_request | quiet_step ].
    + destruct Hs as (H1 & H2 & H3 & H4 & H5).
      unfold QInv; cbn -[on_connect_error]; repeat apply conj; auto.
      apply Forall_app; split; [exact H2|].
      repeat constructor. intros m. apply quiet_on_connect_error; reflexivity.
    + unfold reports_errors in *. cbn -[on_connect_error].
      apply Forall_app; split; [exact Hr|]. repeat constructor.
  - cbn. split; [exact Hr | exact Hs].
Qed.

Lemma reports_errors_step s e :
  reports_errors s /\ QInv is_connect_error true any_store s ->
  reports_errors (step host props s e) /\
  QInv is_connect_error true any_store (step host props s e).
Proof.
  intros (Hr & Hs).
  destruct (Event_is_join e) as [->|Hne].
  - apply joinRoom_reports_errors; assumption.
  - assert (Hq : quiet is_connect_error true any_store (shareScreen host props)
                 /\ quiet is_connect_error true any_store (capture host props)
                 /\ quiet is_connect_error true any_store getCanvas).
    { repeat split;
        [apply quiet_shareScreen | apply quiet_capture | apply quiet_getCanvas];
        auto. }
    destruct (step_quiet is_connect_error true any_store host props
                (fun st els H => H) Hq s e Hne (fun _ => quiet_leaveRoom) Hs)
      as (H1 & H2).
    split; [exact (reports_errors_kept _ _ H2 Hr) | exact H1].
Qed.

Lemma reports_errors_steps es s :
  reports_errors s /\ QInv is_connect_error true any_store s ->
  reports_errors (steps host props s es) /\
  QInv is_connect_error true any_store (steps host props s es).
Proof.
  revert s. induction es as [|e es IH]; intros s Hs; simpl; auto.
  apply IH, reports_errors_step, Hs.
Qed.

(** X13: in every run, a connection error received on any open socket is
    written to [console.error] and emitted once as [socket-error] with the
    error, and nothing else changes: no socket is closed, no ref is
    touched, and what is pending goes on. *)
Theorem connect_error_always_reported es sk so err :
  let s := steps host props init es in
  nth_error (sockets s) sk = Some so ->
  sk_open so = true ->
  step host props s (SocketMsg sk (InConnectError err)) =
    records
      [ConsoleError "Socket connection error:"; Emit "socket-error" (AStr err)]
      s.
Proof.
  intros s Hso Hopen.
  assert (Hinit : reports_errors init /\
                  QInv is_connect_error true any_store init).
  { split; [constructor|].
    unfold QInv, init, any_store; simpl. repeat apply conj; auto. }
  destruct (reports_errors_steps es init Hinit) as (Hr & _).
  fold s in Hr. unfold reports_errors in Hr. rewrite Forall_forall in Hr.
  specialize (Hr so (nth_error_In _ _ Hso)).
  unfold step. rewrite Hso, Hopen. cbn [msg_name]. rewrite Hr.
  cbn. unfold records, record; cbn. now rewrite <- app_assoc.
Qed.

End ConnectErrors.

(** ** A discover message received in the room *)

Section Discovered.

Variable host : Host.
Variable props : Props.





End Discovered.

(** ** A task parked before the others stays where it is *)






Section Frame.

Variable host : Host.
Variable props : Props.




(** *** The ids of the tasks only grow *)






End Frame.

(** ** Between a join and the next join or leave *)



Section Room.

Variable host : Host.
Variable props : Props.



End Room.

(** ** The join, from the call to the camera *)



Section Camera.

Variable host : Host.
Variable props : Props.




End Camera.

(** ** The offers of the initiators *)




Section Offers.

Variable host : Host.
Variable props : Props.


End Offers.

Section Joined.

Variable host : Host.
Variable props : Props.



End Joined.


Section Received.

Variable host : Host.
Variable props : Props.


End Received.



Lemma connect_error_always_reported_witness :
  let s :=
    steps browser demo_props init
      [CallJoinRoom; Settle 0 (Resolved (VStream cam)); CallLeaveRoom;
       CallJoinRoom] in
  step browser demo_props s (SocketMsg 1 (InConnectError "timeout")) =
    records
      [ConsoleError "Socket connection error:";
       Emit "socket-error" (AStr "timeout")] s.
Proof.
  apply (connect_error_always_reported browser demo_props
           [CallJoinRoom; Settle 0 (Resolved (VStream cam)); CallLeaveRoom;
            CallJoinRoom]
           1 (mkSocketObj true [("connect_error", on_connect_error)])
           "timeout");
    reflexivity.
Defined.
